(** * wotd: word of the day

    A shallow embedding of [wotd.ts] and the properties of its word
    source, day selector and entry renderer.

    Conventions of the embedding.
    - A JavaScript string is the list of its UTF-16 code units ([str]);
      [length] is the [.length] of the source.
    - A JavaScript number that holds an integer is a [Z].
    - [console.log] and [console.error] append to an event trace; a thrown
      exception ends the computation with an [Exn] (monad [M]).
    - The ambient inputs of the program (clock, time zone, HOME, network
      and file outcomes, terminal size, colour switch) are explicit
      arguments. *)

From Stdlib Require Import ZArith List String Ascii Lia.
From stdpp Require Import base numbers option list gmap.

Local Open Scope Z_scope.

(** ** Strings *)

Abbreviation str := (list N).

(** An ASCII literal of the source as code units. *)
Definition lit (s : string) : str :=
  map N_of_ascii (list_ascii_of_string s).

(** [l.length] *)
Definition len {A} (l : list A) : Z := Z.of_nat (length l).

Definition SPACE : N := 32%N.
Definition QUOTE : N := 34%N.
Definition NEWLINE : N := 10%N.
Definition ESC : N := 27%N.

(** [String.prototype.padEnd] with the default filler: never truncates. *)
Definition padEnd (s : str) (maxLength : Z) : str :=
  s ++ replicate (Z.to_nat (maxLength - len s)) SPACE.

(** [text.split(" ")]: one piece more than there are spaces. *)
Fixpoint split_space (s : str) : list str :=
  match s with
  | [] => [[]]
  | c :: s' =>
      if N.eqb c SPACE then [] :: split_space s'
      else match split_space s' with
           | w :: ws => (c :: w) :: ws
           | [] => [[c]]
           end
  end.

(** [pieces.join(sep)] *)
Fixpoint join (sep : str) (pieces : list str) : str :=
  match pieces with
  | [] => []
  | [p] => p
  | p :: ps => p ++ sep ++ join sep ps
  end.

(** Decimal digits of a natural number, most significant first. *)
Fixpoint digits_go (fuel : nat) (n : N) (acc : str) : str :=
  let acc' := (48 + n mod 10)%N :: acc in
  match fuel with
  | O => acc'
  | S fuel' => if (n <? 10)%N then acc' else digits_go fuel' (n / 10)%N acc'
  end.

Definition digits (n : N) : str := digits_go (N.size_nat n) n [].

(** [String(n)] for an integer number [n] below 10^21 in absolute value,
    which JavaScript prints in full. *)
Definition Number_toString (n : Z) : str :=
  if n <? 0 then 45%N :: digits (Z.to_N (- n)) else digits (Z.to_N n).

(** ** Exceptions and console output *)

Inductive ErrKind :=
  KError | KRangeError | KTypeError | KNotFound | KOther.

Record Exn := mkExn { kind : ErrKind; message : str }.

Inductive Event :=
| Stdout (s : str)   (* console.log *)
| Stderr (s : str).  (* console.error *)

(** A computation: what it printed, and the exception it threw or the value
    it returned. *)
Definition M (A : Type) : Type := (list Event * (Exn + A))%type.

Definition ret {A} (a : A) : M A := ([], inr a).
Definition throw {A} (e : Exn) : M A := ([], inl e).
Definition bind {A B} (k : A → M B) (m : M A) : M B :=
  match m with
  | (out, inl e) => (out, inl e)
  | (out, inr a) => let '(out', r) := k a in (out ++ out', r)
  end.
Definition console_log (s : str) : M unit := ([Stdout s], inr tt).
Definition console_error (s : str) : M unit := ([Stderr s], inr tt).
(** [try { m } catch (error) { h error }] *)
Definition try_catch {A} (m : M A) (h : Exn → M A) : M A :=
  match m with
  | (out, inl e) => let '(out', r) := h e in (out ++ out', r)
  | (out, inr a) => (out, inr a)
  end.
(** A pure step that may throw. *)
Definition lift {A} (r : Exn + A) : M A := ([], r).

#[global] Instance M_ret : MRet M := @ret.
#[global] Instance M_bind : MBind M := @bind.

Definition trace {A} (m : M A) : list Event := fst m.
Definition outcome {A} (m : M A) : Exn + A := snd m.

Definition is_stdout (e : Event) : bool :=
  match e with Stdout _ => true | Stderr _ => false end.

(** [s.repeat(count)]; the message is V8's. *)
Definition repeat_str (s : str) (count : Z) : Exn + str :=
  if count <? 0 then
    inl (mkExn KRangeError (lit "Invalid count value: " ++ Number_toString count))
  else inr (mjoin (replicate (Z.to_nat count) s)).

(** ** Terminal colours

    [bold], [cyan], ... come from Deno's [std/fmt/colors.ts]: with colours
    switched on, [run str code] is
    [code.open + str.replace(code.regexp, code.open) + code.close], and the
    identity when [NO_COLOR] switches them off. *)

Record Colors := mkColors {
  bold : str → str;
  cyan : str → str;
  gray : str → str;
  italic : str → str;
  magenta : str → str;
  yellow : str → str
}.

Fixpoint starts_with (p s : str) : bool :=
  match p, s with
  | [], _ => true
  | _ :: _, [] => false
  | a :: p', b :: s' => N.eqb a b && starts_with p' s'
  end.

(** [s.replace(/pat/g, rep)] for a literal, non-empty [pat]; [skip] counts
    the units of a match still to be consumed. *)
Fixpoint replaceAll_go (pat rep : str) (skip : nat) (s : str) : str :=
  match s with
  | [] => []
  | c :: s' =>
      match skip with
      | S k => replaceAll_go pat rep k s'
      | O =>
          if starts_with pat s
          then rep ++ replaceAll_go pat rep (length pat - 1)%nat s'
          else c :: replaceAll_go pat rep O s'
      end
  end.

Definition replaceAll (pat rep s : str) : str := replaceAll_go pat rep O s.

Definition sgr (n : Z) : str := [ESC; 91%N] ++ Number_toString n ++ [109%N].

Definition run (enabled : bool) (open close : Z) (s : str) : str :=
  if enabled then sgr open ++ replaceAll (sgr close) (sgr open) s ++ sgr close
  else s.

Definition colors (enabled : bool) : Colors := {|
  bold := run enabled 1 22;
  cyan := run enabled 36 39;
  gray := run enabled 90 39;
  italic := run enabled 3 23;
  magenta := run enabled 35 39;
  yellow := run enabled 33 39
|}.

(** ** Interfaces of the API response *)

Record Phonetic := mkPhonetic { text : str; audio : option str }.

Record Definition_ := mkDefinition {
  definition : str;
  synonyms : list str;
  antonyms : list str;
  example : option str
}.

Record Meaning := mkMeaning {
  partOfSpeech : str;
  definitions : list Definition_;
  meaning_synonyms : list str;
  meaning_antonyms : list str
}.

Record WordEntry := mkWordEntry {
  word : str;
  phonetic : str;
  phonetics : list Phonetic;
  meanings : list Meaning;
  sourceUrls : list str
}.

(** ** Sets

    A JavaScript [Set] keeps its members in insertion order; [same] is the
    comparison it uses on the members. *)

Section JsSet.
Context {A : Type} (same : A → A → bool).

Definition Set_add (s : list A) (x : A) : list A :=
  if existsb (same x) s then s else s ++ [x].

(** [[...new Set(items)]] *)
Definition new_Set (items : list A) : list A := foldl Set_add [] items.
End JsSet.

Definition str_same (a b : str) : bool := bool_decide (a = b).

(** A string is truthy when it is not empty. *)
Definition truthy (s : str) : bool := negb (str_same s []).

(** ** displayWord *)

Definition BOX_H : N := 9472%N.   (* U+2500 *)
Definition BOX_V : N := 9474%N.   (* U+2502 *)
Definition BOX_TL : N := 9484%N.  (* U+250C *)
Definition BOX_TR : N := 9488%N.  (* U+2510 *)
Definition BOX_BL : N := 9492%N.  (* U+2514 *)
Definition BOX_BR : N := 9496%N.  (* U+2518 *)
Definition BOX_L : N := 9500%N.   (* U+251C *)
Definition BOX_R : N := 9508%N.   (* U+2524 *)

Section Layout.
Variable contentWidth : Z.

Definition pad (s : str) : str := SPACE :: padEnd s (contentWidth - 1).

(** One turn of the loop of [wrap] over the state [(lines, currentLine)]. *)
Definition wrap_step (prefix : str) (maxWidth : Z)
    (st : list str * str) (word : str) : list str * str :=
  let '(lines, currentLine) := st in
  if len currentLine + len word + 1 >? maxWidth then
    (lines ++ [pad currentLine], prefix ++ word)
  else
    (lines,
     currentLine ++ (if str_same currentLine prefix then [] else [SPACE]) ++ word).

Definition wrap (text prefix : str) : list str :=
  let maxWidth := contentWidth - 2 - len prefix in
  let '(lines, currentLine) :=
    foldl (wrap_step prefix maxWidth) ([], prefix) (split_space text) in
  lines ++ [pad currentLine].
End Layout.

Section Render.
Variable c : Colors.
Variable contentWidth : Z.

(** [print]: one content line between the two vertical border glyphs. *)
Definition print (s : str) : Event :=
  Stdout (bold c (gray c [BOX_V]) ++ s ++ bold c (gray c [BOX_V])).

(** [entry.phonetics.find(p => p.text)?.text || entry.phonetic || ""] *)
Definition phoneticText (entry : WordEntry) : str :=
  let found :=
    match List.find (λ p, truthy (text p)) (phonetics entry) with
    | Some p => text p
    | None => []
    end in
  if truthy found then found
  else if truthy (phonetic entry) then phonetic entry else [].

Definition header (entry : WordEntry) : Event :=
  print (pad contentWidth
    (bold c (cyan c (word entry)) ++ lit "  " ++
     gray c (italic c (phoneticText entry)))).

(** The body of [meaning.definitions.forEach((def, defIndex) => ...)]. *)
Definition definition_events (defIndex : nat) (def : Definition_) : list Event :=
  let defLines :=
    wrap contentWidth
      (Number_toString (Z.of_nat defIndex + 1) ++ lit ". " ++ definition def)
      (lit "  ") in
  map print defLines ++
  match example def with
  | Some ex =>
      if truthy ex then
        let exLines :=
          wrap contentWidth
            (italic c (lit "e.g. " ++ [QUOTE] ++ ex ++ [QUOTE])) (lit "    ") in
        map (λ line, print (gray c line)) exLines
      else []
  | None => []
  end.

(** The body of [entry.meanings.forEach((meaning, index) => ...)];
    [count] is [entry.meanings.length]. *)
Definition meaning_events (count : nat) (index : nat) (meaning : Meaning)
    : list Event :=
  print (pad contentWidth (magenta c (partOfSpeech meaning)))
  :: mjoin (imap definition_events (definitions meaning))
  ++ (if Z.of_nat index <? Z.of_nat count - 1
      then [print (pad contentWidth [])] else []).

Definition thesaurus (entry : WordEntry) : list str :=
  new_Set str_same
    (flat_map meaning_synonyms (meanings entry) ++
     flat_map (λ m, flat_map synonyms (definitions m)) (meanings entry)).

Definition thesaurus_events (entry : WordEntry) (separator : str) : list Event :=
  let synonyms := thesaurus entry in
  if 0 <? len synonyms then
    Stdout separator
    :: print (pad contentWidth (bold c (yellow c (lit "Thesaurus"))))
    :: map print (wrap contentWidth (join (lit ", ") synonyms) (lit "  "))
  else [].
End Render.

Definition emit (es : list Event) : M unit := (es, inr tt).

Definition displayWord (c : Colors) (terminalWidth : Z) (data : list WordEntry)
    : M unit :=
  match data with
  | [] => console_error (bold c (yellow c (lit "No data to display.")))
  | entry :: _ =>
      let contentWidth := Z.min 80 (terminalWidth - 4) in
      line ← lift (repeat_str [BOX_H] contentWidth);
      let topBorder := bold c (gray c ([BOX_TL] ++ line ++ [BOX_TR])) in
      let bottomBorder := bold c (gray c ([BOX_BL] ++ line ++ [BOX_BR])) in
      let separator := bold c (gray c ([BOX_L] ++ line ++ [BOX_R])) in
      console_log topBorder;;
      emit [header c contentWidth entry];;
      console_log separator;;
      emit (mjoin (imap (meaning_events c contentWidth (length (meanings entry)))
                        (meanings entry)));;
      emit (thesaurus_events c contentWidth entry separator);;
      console_log bottomBorder
  end.

(** ** Dates

    Time values are milliseconds since the epoch, as [Date.prototype.getTime]
    returns them. The calendar functions are those of ECMA-262; the host's
    time zone is an argument. *)

Definition msPerDay : Z := 86400000.
Definition Day (t : Z) : Z := t / msPerDay.
Definition DayFromYear (y : Z) : Z :=
  365 * (y - 1970) + (y - 1969) / 4 - (y - 1901) / 100 + (y - 1601) / 400.
Definition TimeFromYear (y : Z) : Z := msPerDay * DayFromYear y.

Fixpoint year_up (fuel : nat) (d y : Z) : Z :=
  match fuel with
  | O => y
  | S fuel' => if DayFromYear (y + 1) <=? d then year_up fuel' d (y + 1) else y
  end.

(** The largest year that starts at or before [t]. *)
Definition YearFromTime (t : Z) : Z :=
  let d := Day t in
  let y0 := 1970 + (if d <? 0 then d / 365 else d / 366) in
  year_up (Z.to_nat ((d - DayFromYear y0) / 365 + 1)) d y0.

Definition DayWithinYear (t : Z) : Z := Day t - DayFromYear (YearFromTime t).

(** [LocalTZA(t, isUTC)] of the host: the offset of local time, in
    milliseconds, at the UTC time [t] or at the local time [t]. *)
Record TimeZone := mkTimeZone {
  LocalTZA_utc : Z → Z;
  LocalTZA_local : Z → Z
}.

Definition LocalTime (tz : TimeZone) (t : Z) : Z := t + LocalTZA_utc tz t.
Definition UTC (tz : TimeZone) (t : Z) : Z := t - LocalTZA_local tz t.

Definition getFullYear (tz : TimeZone) (t : Z) : Z :=
  YearFromTime (LocalTime tz t).

(** [new Date(year, 0, date).getTime()]: local midnight of the day [date] of
    January; years 0 to 99 mean 1900 to 1999. *)
Definition Date_of_January (tz : TimeZone) (year date : Z) : Z :=
  let yr := if (0 <=? year) && (year <=? 99) then 1900 + year else year in
  UTC tz (msPerDay * (DayFromYear yr + date - 1)).

(** [a % b] on integers; [None] is NaN. *)
Definition js_rem (a b : Z) : option Z :=
  if b =? 0 then None else Some (Z.rem a b).

(** [list[index]]; [None] is [undefined]. *)
Definition element {A} (l : list A) (index : option Z) : option A :=
  match index with
  | Some i => if i <? 0 then None else l !! Z.to_nat i
  | None => None
  end.

Definition dayOfYear (tz : TimeZone) (now : Z) : Z :=
  let startOfYear := Date_of_January tz (getFullYear tz now) 0 in
  let diff := now - startOfYear in
  let oneDay := 1000 * 60 * 60 * 24 in
  diff / oneDay.

Definition getWordOfTheDay {A} (tz : TimeZone) (now : Z) (wordList : list A)
    : option A :=
  let index := js_rem (dayOfYear tz now) (len wordList) in
  element wordList index.

(** ** JSON values

    What [JSON.parse] and [response.json()] return at run time, whatever the
    declared TypeScript type. Numbers are restricted to the integers below
    10^21 in absolute value. *)

#[warnings="-register-all"]
Inductive json :=
| JNull
| JBool (b : bool)
| JNum (n : Z)
| JStr (s : str)
| JArr (items : list json)
| JObj (fields : list (str * json)).

(** [Array.isArray] *)
Definition isArray (v : json) : bool :=
  match v with JArr _ => true | _ => false end.

(** [String(v)], as a template literal applies it. *)
Fixpoint ToString (v : json) : str :=
  match v with
  | JNull => lit "null"
  | JBool b => if b then lit "true" else lit "false"
  | JNum n => Number_toString n
  | JStr s => s
  | JArr items =>
      join (lit ",")
        (map (λ x, match x with JNull => [] | _ => ToString x end) items)
  | JObj _ => lit "[object Object]"
  end.

(** The same for a value that may be [undefined]. *)
Definition ToString_opt (v : option json) : str :=
  match v with Some x => ToString x | None => lit "undefined" end.

(** SameValueZero between two members of one freshly decoded document:
    primitives compare by value, two arrays or objects are never the same
    reference. *)
Definition SameValueZero (v w : json) : bool :=
  match v, w with
  | JNull, JNull => true
  | JBool a, JBool b => bool_decide (a = b)
  | JNum a, JNum b => bool_decide (a = b)
  | JStr a, JStr b => str_same a b
  | _, _ => false
  end.

Definition is_high_surrogate (u : N) : bool := ((55296 <=? u) && (u <=? 56319))%N.
Definition is_low_surrogate (u : N) : bool := ((56320 <=? u) && (u <=? 57343))%N.

(** The string iterator: one piece per code point. *)
Fixpoint code_points (s : str) : list str :=
  match s with
  | [] => []
  | a :: s' =>
      match s' with
      | b :: s'' =>
          if is_high_surrogate a && is_low_surrogate b
          then [a; b] :: code_points s''
          else [a] :: code_points s'
      | [] => [[a]]
      end
  end.

(** [...v] inside an array literal; the wording of the message is the
    engine's. *)
Definition spread (name : str) (v : json) : Exn + list json :=
  match v with
  | JArr items => inr items
  | JStr s => inr (map JStr (code_points s))
  | _ => inl (mkExn KTypeError (name ++ lit " is not iterable"))
  end.

(** ** loadWordList *)

(** What [await fetch(url)] gives: a rejection, or a response with its
    status and what [response.json()] makes of its body: the decoded body (a
    JSON document for the word list, entries of the declared type
    [WordEntry[]] for the dictionary), or the exception that the decoding
    throws when the body is not JSON. *)
Inductive FetchResult (B : Type) :=
| FetchRejects (e : Exn)
| Response (status : Z) (body : B)
| BadBody (status : Z) (e : Exn).
Arguments FetchRejects {B} e.
Arguments Response {B} status body.
Arguments BadBody {B} status e.

(** The response with the status [status] on which [response.json()] gives
    [decoded]. *)
Definition response_of {B} (status : Z) (decoded : Exn + B) : FetchResult B :=
  match decoded with
  | inl e => BadBody status e
  | inr body => Response status body
  end.

(** [response.ok] *)
Definition ok (status : Z) : bool := (200 <=? status) && (status <=? 299).

(** What reading [custom_words.json] gives: a rejection of
    [Deno.readTextFile], or the text, seen through [JSON.parse]. *)
Inductive ReadResult :=
| ReadRejects (e : Exn)
| FileText (parsed : Exn + json).

Record Env := mkEnv {
  env_color : bool;                      (* colours enabled (no NO_COLOR) *)
  env_words : FetchResult json;          (* fetch(defaultWordsURL) *)
  env_HOME : option str;                 (* Deno.env.get("HOME") *)
  env_ensureDir : option Exn;            (* ensureDir(configPath) throws *)
  env_custom : ReadResult;               (* custom_words.json *)
  env_tz : TimeZone;
  env_now : Z;                           (* new Date().getTime() *)
  env_fetch : str → FetchResult (list WordEntry);
  env_columns : Z                        (* Deno.consoleSize().columns *)
}.

Definition EMPTY_LIST_MESSAGE : str :=
  lit "Word list is empty. Cannot select a word of the day.".

(** Step 3 of [loadWordList]: merge the lists and remove duplicates. *)
Definition merge {A} (same : A → A → bool) (defaultWords customWords : list A)
    : Exn + list A :=
  let combinedList := new_Set same (defaultWords ++ customWords) in
  if len combinedList =? 0 then inl (mkExn KError EMPTY_LIST_MESSAGE)
  else inr combinedList.

Definition NOT_ARRAY_WARNING : str :=
  lit "Warning: Custom words file is not a valid JSON array. Ignoring.".

Definition load_default (c : Colors) (r : FetchResult json) : M json :=
  try_catch
    (match r with
     | FetchRejects e => throw e
     | Response status body =>
         if ok status then mret body
         else console_error (gray c (lit "Could not fetch default word list."));;
              mret (JArr [])
     | BadBody status e =>
         if ok status then throw e
         else console_error (gray c (lit "Could not fetch default word list."));;
              mret (JArr [])
     end)
    (λ error,
       console_error
         (gray c (lit "Error fetching default word list: " ++ message error));;
       mret (JArr [])).

Definition load_custom (c : Colors) (home : option str)
    (ensureDir : option Exn) (r : ReadResult) : M json :=
  match home with
  | Some homeDir =>
      if truthy homeDir then
        match ensureDir with Some e => throw e | None => mret tt end;;
        try_catch
          (match r with
           | ReadRejects e => throw e
           | FileText (inl e) => throw e
           | FileText (inr customWords) =>
               if negb (isArray customWords) then
                 console_error (yellow c NOT_ARRAY_WARNING);;
                 mret (JArr [])
               else mret customWords
           end)
          (λ error,
             match kind error with
             | KNotFound => mret (JArr [])
             | _ =>
                 console_error
                   (yellow c
                      (lit "Warning: Could not read or parse custom_words.json. "
                       ++ message error));;
                 mret (JArr [])
             end)
      else mret (JArr [])
  | None => mret (JArr [])
  end.

Definition loadWordList (env : Env) : M (list json) :=
  let c := colors (env_color env) in
  defaultWords ← load_default c (env_words env);
  customWords ←
    load_custom c (env_HOME env) (env_ensureDir env) (env_custom env);
  d ← lift (spread (lit "defaultWords") defaultWords);
  cu ← lift (spread (lit "customWords") customWords);
  lift (merge SameValueZero d cu).

(** ** fetchWordData *)

Definition API_URL (word : str) : str :=
  lit "https://api.dictionaryapi.dev/api/v2/entries/en/" ++ word.

Definition NOT_FOUND_MESSAGE (word : str) : str :=
  lit "Sorry, could not find definitions for " ++ [QUOTE] ++ word ++ [QUOTE]
  ++ lit ".".

Definition API_FAILED_MESSAGE (status : Z) : str :=
  lit "API request failed with status: " ++ Number_toString status.

Definition fetchWordData (fetch : str → FetchResult (list WordEntry))
    (word : str) : M (list WordEntry) :=
  match fetch (API_URL word) with
  | FetchRejects e => throw e
  | Response status body =>
      if negb (ok status) then
        if status =? 404 then throw (mkExn KError (NOT_FOUND_MESSAGE word))
        else throw (mkExn KError (API_FAILED_MESSAGE status))
      else mret body
  | BadBody status e =>
      if negb (ok status) then
        if status =? 404 then throw (mkExn KError (NOT_FOUND_MESSAGE word))
        else throw (mkExn KError (API_FAILED_MESSAGE status))
      else throw e
  end.

(** ** main *)

Definition main (env : Env) : M unit :=
  let c := colors (env_color env) in
  try_catch
    (wordList ← loadWordList env;
     let word := getWordOfTheDay (env_tz env) (env_now env) wordList in
     data ← fetchWordData (env_fetch env) (ToString_opt word);
     displayWord c (env_columns env) data)
    (λ error,
       console_error
         (bold c (yellow c
            ([NEWLINE] ++ lit "Error: " ++ message error ++ [NEWLINE])))).

(** ** Notions used to state the properties *)

(** The lines of [wrap] before padding: the values of [currentLine] that the
    loop pushes. *)
Definition lines_step (prefix : str) (maxWidth : Z)
    (st : list str * str) (word : str) : list str * str :=
  let '(lines, currentLine) := st in
  if len currentLine + len word + 1 >? maxWidth then
    (lines ++ [currentLine], prefix ++ word)
  else
    (lines,
     currentLine ++ (if str_same currentLine prefix then [] else [SPACE]) ++ word).

Definition wrap_lines (contentWidth : Z) (text prefix : str) : list str :=
  let maxWidth := contentWidth - 2 - len prefix in
  let '(lines, currentLine) :=
    foldl (lines_step prefix maxWidth) ([], prefix) (split_space text) in
  lines ++ [currentLine].

(** What a line of [wrap] can be: the bare prefix, the prefix and one word of
    [W], or a line within the width the loop allows. *)
Definition line_shape (contentWidth : Z) (prefix : str) (W : list str)
    (raw : str) : Prop :=
  raw = prefix ∨ (∃ w, w ∈ W ∧ raw = prefix ++ w) ∨
  len raw ≤ contentWidth - 2 - len prefix.

(** The non-empty words of a text, in order. *)
Definition words_of (s : str) : list str :=
  filter (λ w, w ≠ []) (split_space s).

(** [needle] occurs in [hay]. *)
Definition contains (needle hay : str) : Prop :=
  ∃ before after, hay = before ++ needle ++ after.

(** A list with every element kept at its first occurrence and its later
    repetitions removed. *)
Fixpoint first_occurrences {A} `{EqDecision A} (l : list A) : list A :=
  match l with
  | [] => []
  | x :: l' => x :: filter (λ y, y ≠ x) (first_occurrences l')
  end.

(** [w] occurs in [l] at index [i] and nowhere before. *)
Definition first_at {A} (l : list A) (i : nat) (w : A) : Prop :=
  l !! i = Some w ∧ w ∉ take i l.

(** A JSON document that is an array of strings. *)
Definition is_string_array (v : json) : bool :=
  match v with
  | JArr items => forallb (λ x, match x with JStr _ => true | _ => false end) items
  | _ => false
  end.

(** A border line of a box of interior width [contentWidth]. *)
Definition border (left right : N) (contentWidth : Z) : str :=
  [left] ++ replicate (Z.to_nat contentWidth) BOX_H ++ [right].

(** A zone whose offset never changes. *)
Definition fixed_zone (offset : Z) : TimeZone :=
  {| LocalTZA_utc := λ _, offset; LocalTZA_local := λ _, offset |}.

(** A time of the year 2024 given by its day (0 for January 1), hour and
    minute. *)
Definition in_2024 (day hour minute : Z) : Z :=
  msPerDay * (DayFromYear 2024 + day) + 3600000 * hour + 60000 * minute.

(** Central European Time under its rules of 2024: one hour ahead of UTC,
    two hours from March 31 (day 90) 01:00 UTC to October 27 (day 300)
    01:00 UTC. *)
Definition CET : TimeZone := {|
  LocalTZA_utc := λ t,
    if (in_2024 90 1 0 <=? t) && (t <? in_2024 300 1 0)
    then 7200000 else 3600000;
  LocalTZA_local := λ t,
    if (in_2024 90 3 0 <=? t) && (t <? in_2024 300 3 0)
    then 7200000 else 3600000
|}.

(** July 1, 2024 in that zone, at 00:30 and at 12:00 local time. *)
Definition july1_0030 : Z := in_2024 181 22 30.
Definition july1_1200 : Z := in_2024 182 10 0.

Definition alpha_beta : list str := [lit "alpha"; lit "beta"].

(** A line of the box that frames [content]. *)
Definition framed (contentWidth : Z) (content s : str) : Prop :=
  s = [BOX_V] ++ [SPACE] ++ padEnd content (contentWidth - 1) ++ [BOX_V].

(** The lines of a block before they are drawn: a border with its two
    corner glyphs, or a content, not yet padded. *)
Inductive BoxLine :=
| Border (a b : N)
| Content (content : str).

(** The lines that [displayWord] prints with colours off, in the order of
    the block: for a definition its wrapped text and its wrapped example. *)
Definition definition_layout (contentWidth : Z) (defIndex : nat)
    (def : Definition_) : list BoxLine :=
  (Content <$>
     wrap_lines contentWidth
       (Number_toString (Z.of_nat defIndex + 1) ++ lit ". " ++ definition def)
       (lit "  ")) ++
  match example def with
  | Some ex =>
      if truthy ex then
        Content <$>
          wrap_lines contentWidth (lit "e.g. " ++ [QUOTE] ++ ex ++ [QUOTE])
            (lit "    ")
      else []
  | None => []
  end.

(** For a meaning its part of speech, its definitions, and a blank line if
    it is not the last. *)
Definition meaning_layout (contentWidth : Z) (count index : nat)
    (meaning : Meaning) : list BoxLine :=
  Content (partOfSpeech meaning)
  :: mjoin (imap (definition_layout contentWidth) (definitions meaning))
  ++ (if Z.of_nat index <? Z.of_nat count - 1 then [Content []] else []).

(** For an entry the top border, the header, a separator, the meanings, the
    thesaurus behind a separator if there is a synonym, the bottom border. *)
Definition layout (contentWidth : Z) (entry : WordEntry) : list BoxLine :=
  Border BOX_TL BOX_TR
  :: Content (word entry ++ lit "  " ++ phoneticText entry)
  :: Border BOX_L BOX_R
  :: mjoin (imap (meaning_layout contentWidth (length (meanings entry)))
                 (meanings entry))
  ++ (if 0 <? len (thesaurus entry) then
        Border BOX_L BOX_R
        :: Content (lit "Thesaurus")
        :: (Content <$>
              wrap_lines contentWidth (join (lit ", ") (thesaurus entry))
                (lit "  "))
      else [])
  ++ [Border BOX_BL BOX_BR].

(** A border drawn, and a content drawn: behind one space, padded on the
    right, between the two vertical glyphs. *)
Definition render_line (contentWidth : Z) (l : BoxLine) : str :=
  match l with
  | Border a b => border a b contentWidth
  | Content content =>
      [BOX_V] ++ [SPACE] ++ padEnd content (contentWidth - 1) ++ [BOX_V]
  end.

(** An entry with one meaning and one definition of one long word. *)
Definition sample_entry : WordEntry := {|
  word := lit "erudite";
  phonetic := [];
  phonetics := [];
  meanings := [ {|
    partOfSpeech := lit "adjective";
    definitions := [ {|
      definition := lit "knowledgeable";
      synonyms := [lit "learned"];
      antonyms := [];
      example := None |} ];
    meaning_synonyms := [];
    meaning_antonyms := [] |} ];
  sourceUrls := []
|}.

(** A run with the default list [["alpha"]], a home directory, colours off,
    and [custom] as the content of [custom_words.json]. *)
Definition sample_env (custom : json) : Env := {|
  env_color := false;
  env_words := Response 200 (JArr [JStr (lit "alpha")]);
  env_HOME := Some (lit "/home/user");
  env_ensureDir := None;
  env_custom := FileText (inr custom);
  env_tz := fixed_zone 0;
  env_now := in_2024 2 12 0;
  env_fetch := λ _, Response 404 [];
  env_columns := 80
|}.

(** The document [{"not": "an array"}]. *)
Definition not_an_array : json := JObj [(lit "not", JStr (lit "an array"))].

(** What a terminal shows of a string: its code units outside the escape
    sequences [ESC [ ... m]. *)
Fixpoint visible_go (inside : bool) (s : str) : str :=
  match s with
  | [] => []
  | u :: s' =>
      if inside then visible_go (negb (N.eqb u 109)) s'
      else if N.eqb u ESC then visible_go true s'
      else u :: visible_go false s'
  end.

Definition visible (s : str) : str := visible_go false s.

Definition printed (e : Event) : str :=
  match e with Stdout s => s | Stderr s => s end.

(** A run that finds [sample_entry] for the word of the day, on a terminal of
    [columns] columns. *)
Definition render_env (columns : Z) : Env := {|
  env_color := false;
  env_words := Response 200 (JArr [JStr (lit "erudite")]);
  env_HOME := None;
  env_ensureDir := None;
  env_custom := FileText (inr (JArr []));
  env_tz := fixed_zone 0;
  env_now := in_2024 2 12 0;
  env_fetch := λ _, Response 200 [sample_entry];
  env_columns := columns
|}.

(** The run [env] with other outcomes for the configuration directory and
    the custom file. *)
Definition with_custom (env : Env) (ensureDir : option Exn) (custom : ReadResult)
    : Env := {|
  env_color := env_color env;
  env_words := env_words env;
  env_HOME := env_HOME env;
  env_ensureDir := ensureDir;
  env_custom := custom;
  env_tz := env_tz env;
  env_now := env_now env;
  env_fetch := env_fetch env;
  env_columns := env_columns env
|}.

(** The exception that reading or parsing the custom file ends with. *)
Definition read_error (r : ReadResult) : option Exn :=
  match r with
  | ReadRejects e => Some e
  | FileText (inl e) => Some e
  | FileText (inr _) => None
  end.

(** The line that [loadWordList] logs when the default list is not
    available. *)
Definition default_failure (r : FetchResult json) : option str :=
  match r with
  | FetchRejects e => Some (lit "Error fetching default word list: " ++ message e)
  | Response status _ =>
      if ok status then None else Some (lit "Could not fetch default word list.")
  | BadBody status e =>
      if ok status then Some (lit "Error fetching default word list: " ++ message e)
      else Some (lit "Could not fetch default word list.")
  end.

(** [DaysInYear] of ECMA-262. *)
Definition DaysInYear (y : Z) : Z :=
  if negb (y mod 4 =? 0) then 365
  else if negb (y mod 100 =? 0) then 366
  else if negb (y mod 400 =? 0) then 365
  else 366.

(** A text whose words all fit behind the prefix in a box of interior width
    [contentWidth]. *)
Definition text_fits (contentWidth : Z) (prefix text : str) : bool :=
  (len prefix <=? contentWidth - 1) &&
  forallb (λ w, len (prefix ++ w) <=? contentWidth - 1) (split_space text).

Definition definition_fits (contentWidth : Z) (defIndex : nat) (def : Definition_)
    : bool :=
  text_fits contentWidth (lit "  ")
    (Number_toString (Z.of_nat defIndex + 1) ++ lit ". " ++ definition def) &&
  match example def with
  | Some ex =>
      if truthy ex then
        text_fits contentWidth (lit "    ") (lit "e.g. " ++ [QUOTE] ++ ex ++ [QUOTE])
      else true
  | None => true
  end.

Definition meaning_fits (contentWidth : Z) (meaning : Meaning) : bool :=
  (len (partOfSpeech meaning) <=? contentWidth - 1) &&
  forallb id (imap (definition_fits contentWidth) (definitions meaning)).

(** An entry of which no content overflows: header, parts of speech, the
    label of the thesaurus and every word of the wrapped texts fit. *)
Definition entry_fits (contentWidth : Z) (entry : WordEntry) : bool :=
  (len (word entry ++ lit "  " ++ phoneticText entry) <=? contentWidth - 1) &&
  forallb (meaning_fits contentWidth) (meanings entry) &&
  (len (lit "Thesaurus") <=? contentWidth - 1) &&
  text_fits contentWidth (lit "  ") (join (lit ", ") (thesaurus entry)).

(** An entry like [sample_entry] with a short definition and an example. *)
Definition short_entry : WordEntry := {|
  word := lit "erudite";
  phonetic := lit "/er-u-dite/";
  phonetics := [ {| text := []; audio := None |} ];
  meanings := [ {|
    partOfSpeech := lit "adjective";
    definitions := [ {|
      definition := lit "having great knowledge";
      synonyms := [lit "learned"; lit "scholarly"];
      antonyms := [];
      example := Some (lit "an erudite talk") |} ];
    meaning_synonyms := [lit "learned"];
    meaning_antonyms := [] |} ];
  sourceUrls := []
|}.

(** A run whose default list is the JSON document [words], whose answer has
    the status [status], and whose custom file holds [custom]. *)
Definition lists_env (status : Z) (words custom : json) : Env := {|
  env_color := false;
  env_words := Response status words;
  env_HOME := Some (lit "/home/user");
  env_ensureDir := None;
  env_custom := FileText (inr custom);
  env_tz := fixed_zone 0;
  env_now := in_2024 2 12 0;
  env_fetch := λ _, Response 404 [];
  env_columns := 80
|}.

(** A run like [render_env] whose lookup is rejected. *)
Definition offline_env : Env := {|
  env_color := false;
  env_words := Response 200 (JArr [JStr (lit "erudite")]);
  env_HOME := None;
  env_ensureDir := None;
  env_custom := FileText (inr (JArr []));
  env_tz := fixed_zone 0;
  env_now := in_2024 2 12 0;
  env_fetch := λ _, FetchRejects (mkExn KTypeError (lit "error sending request"));
  env_columns := 80
|}.

(** * Properties *)

(** ** Strings *)

Lemma len_app {A} (a b : list A) : len (a ++ b) = len a + len b.
Proof. unfold len. rewrite length_app. lia. Qed.

Lemma len_nil {A} : len (@nil A) = 0.
Proof. reflexivity. Qed.

Lemma len_cons {A} (x : A) (l : list A) : len (x :: l) = 1 + len l.
Proof. unfold len. simpl length. lia. Qed.

Lemma len_nonneg {A} (l : list A) : 0 ≤ len l.
Proof. unfold len. lia. Qed.

Lemma len_padEnd (s : str) (n : Z) : len (padEnd s n) = Z.max (len s) n.
Proof.
  unfold padEnd. rewrite len_app. unfold len at 2.
  rewrite length_replicate. pose proof (len_nonneg s). lia.
Qed.

Lemma padEnd_fits (s : str) (n : Z) : n ≤ len s → padEnd s n = s.
Proof.
  intros Hn. unfold padEnd.
  replace (Z.to_nat (n - len s)) with O by lia. apply app_nil_r.
Qed.

Lemma len_pad (cw : Z) (s : str) : len (pad cw s) = 1 + Z.max (len s) (cw - 1).
Proof. unfold pad. rewrite len_cons, len_padEnd. reflexivity. Qed.

(** ** Splitting at spaces *)

Lemma split_space_nonempty (s : str) : split_space s ≠ [].
Proof.
  destruct s as [|c s]; simpl; [done|].
  destruct (N.eqb c SPACE); [done|]. by destruct (split_space s).
Qed.

Lemma split_space_app (a b : str) :
  split_space (a ++ SPACE :: b) = split_space a ++ split_space b.
Proof.
  induction a as [|c a IH]; simpl; [done|].
  destruct (N.eqb c SPACE); [by rewrite IH|].
  rewrite IH. pose proof (split_space_nonempty a).
  by destruct (split_space a).
Qed.

Lemma split_space_no_space (s : str) : Forall (λ w, SPACE ∉ w) (split_space s).
Proof.
  induction s as [|c s IH]; simpl.
  - repeat constructor. apply not_elem_of_nil.
  - destruct (N.eqb_spec c SPACE) as [->|Hc].
    + constructor; [apply not_elem_of_nil | done].
    + destruct (split_space s) as [|w ws]; inversion IH; subst.
      * repeat constructor. rewrite list_elem_of_singleton. congruence.
      * constructor; [|done]. rewrite not_elem_of_cons. split; [congruence|done].
Qed.

Lemma split_space_word (w : str) : SPACE ∉ w → split_space w = [w].
Proof.
  induction w as [|c w IH]; simpl; [done|].
  rewrite not_elem_of_cons. intros [Hc Hw].
  destruct (N.eqb_spec c SPACE) as [->|_]; [done|]. by rewrite IH.
Qed.

Lemma words_of_app (a b : str) :
  words_of (a ++ SPACE :: b) = words_of a ++ words_of b.
Proof. unfold words_of. by rewrite split_space_app, filter_app. Qed.

Lemma words_of_word (w : str) :
  SPACE ∉ w → words_of w = filter (λ w, w ≠ []) [w].
Proof. intros Hw. unfold words_of. by rewrite split_space_word. Qed.

(** A text is its pieces joined by single spaces. *)
Lemma join_split_space (s : str) : join [SPACE] (split_space s) = s.
Proof.
  induction s as [|c s IH]; simpl; [done|].
  pose proof (split_space_nonempty s) as Hne.
  destruct (N.eqb_spec c SPACE) as [->|_].
  - destruct (split_space s) as [|w ws] eqn:E; [done|].
    simpl in *. by rewrite IH.
  - destruct (split_space s) as [|w ws] eqn:E; [done|].
    destruct ws; simpl in *; by rewrite <- IH.
Qed.

(** ** wrap *)

Section Wrap.
Variable contentWidth : Z.
Variable prefix : str.
Local Abbreviation maxWidth := (contentWidth - 2 - len prefix).

Lemma wrap_fold_pad (ws : list str) (lines : list str) (cur : str) :
  foldl (wrap_step contentWidth prefix maxWidth) (pad contentWidth <$> lines, cur) ws =
  let '(lines', cur') := foldl (lines_step prefix maxWidth) (lines, cur) ws in
  (pad contentWidth <$> lines', cur').
Proof.
  revert lines cur. induction ws as [|w ws IH]; intros lines cur; simpl; [done|].
  destruct (len cur + len w + 1 >? maxWidth).
  - rewrite <- IH. by rewrite fmap_app.
  - apply IH.
Qed.

Lemma wrap_pad (text : str) :
  wrap contentWidth text prefix =
  pad contentWidth <$> wrap_lines contentWidth text prefix.
Proof.
  unfold wrap, wrap_lines.
  pose proof (wrap_fold_pad (split_space text) [] prefix) as H. simpl in H.
  rewrite H. destruct (foldl (lines_step _ _) _ _) as [lines cur].
  by rewrite fmap_app.
Qed.

Local Abbreviation line_shape := (line_shape contentWidth prefix).

Lemma lines_step_shape (W : list str) lines cur w :
  Forall (line_shape W) lines → line_shape W cur → w ∈ W →
  Forall (line_shape W) (lines_step prefix maxWidth (lines, cur) w).1 ∧
  line_shape W (lines_step prefix maxWidth (lines, cur) w).2.
Proof.
  intros Hl Hc Hw. simpl.
  destruct (len cur + len w + 1 >? maxWidth) eqn:E; simpl.
  - split.
    + apply Forall_app. split; [done|]. by constructor.
    + right. left. eauto.
  - split; [done|]. right. right.
    rewrite !len_app. destruct (str_same cur prefix); rewrite ?len_nil, ?len_cons, ?len_nil; lia.
Qed.

Lemma lines_fold_shape (W ws : list str) lines cur :
  ws ⊆ W → Forall (line_shape W) lines → line_shape W cur →
  Forall (line_shape W) (foldl (lines_step prefix maxWidth) (lines, cur) ws).1 ∧
  line_shape W (foldl (lines_step prefix maxWidth) (lines, cur) ws).2.
Proof.
  revert lines cur. induction ws as [|w ws IH]; intros lines cur Hsub Hl Hc.
  - done.
  - cbn [foldl].
    destruct (lines_step_shape W lines cur w) as [H1 H2]; [done..| |].
    { apply Hsub. left. }
    destruct (lines_step prefix maxWidth (lines, cur) w) as [l' c'].
    apply IH; [|done..]. intros x Hx. apply Hsub. by right.
Qed.

Lemma wrap_lines_shape (text : str) :
  Forall (line_shape (split_space text)) (wrap_lines contentWidth text prefix).
Proof.
  unfold wrap_lines.   destruct (lines_fold_shape (split_space text) (split_space text) [] prefix)
    as [H1 H2]; [done|constructor|by left|].
  destruct (foldl _ _ _) as [lines cur]. apply Forall_app. split; [done|].
  by constructor.
Qed.

(** The loop keeps the words whole and in order. *)
Lemma lines_step_words (seen : list str) bodies body w :
  SPACE ∉ w →
  mjoin (words_of <$> bodies ++ [body]) = filter (λ w, w ≠ []) seen →
  ∃ bodies' body',
    lines_step prefix maxWidth (app prefix <$> bodies, prefix ++ body) w =
      (app prefix <$> bodies', prefix ++ body') ∧
    mjoin (words_of <$> bodies' ++ [body']) = filter (λ w, w ≠ []) (seen ++ [w]).
Proof.
  intros Hw Hinv. simpl.
  rewrite filter_app, <- Hinv.
  destruct (len (prefix ++ body) + len w + 1 >? maxWidth).
  - exists (bodies ++ [body]), w. split.
    + by rewrite fmap_app.
    + rewrite fmap_app, join_app. simpl. rewrite app_nil_r.
      by rewrite (words_of_word w).
  - unfold str_same. case_bool_decide as Heq.
    + assert (body = []) as ->.
      { apply (f_equal length) in Heq. rewrite length_app in Heq.
        destruct body; [done|simpl in Heq; lia]. }
      exists bodies, w. split; [by rewrite app_nil_r|].
      rewrite !fmap_app, !join_app. simpl. rewrite !app_nil_r.
      by rewrite (words_of_word w).
    + exists bodies, (body ++ SPACE :: w). split.
      * by rewrite <- app_assoc.
      * rewrite !fmap_app, !join_app. simpl. rewrite !app_nil_r.
        rewrite words_of_app, (words_of_word w) by done.
        by rewrite app_assoc.
Qed.

Lemma lines_fold_words (ws seen : list str) bodies body :
  Forall (λ w, SPACE ∉ w) ws →
  mjoin (words_of <$> bodies ++ [body]) = filter (λ w, w ≠ []) seen →
  ∃ bodies' body',
    foldl (lines_step prefix maxWidth) (app prefix <$> bodies, prefix ++ body) ws =
      (app prefix <$> bodies', prefix ++ body') ∧
    mjoin (words_of <$> bodies' ++ [body']) = filter (λ w, w ≠ []) (seen ++ ws).
Proof.
  revert seen bodies body.
  induction ws as [|w ws IH]; intros seen bodies body Hws Hinv.
  - exists bodies, body. by rewrite app_nil_r.
  - inversion Hws as [|? ? Hw Hws']; subst.
    destruct (lines_step_words seen bodies body w Hw Hinv)
      as (bodies1 & body1 & Hstep & Hinv1).
    destruct (IH (seen ++ [w]) bodies1 body1 Hws' Hinv1)
      as (bodies2 & body2 & Hfold & Hinv2).
    exists bodies2, body2. split.
    + cbn [foldl]. by rewrite Hstep.
    + by rewrite <- app_assoc in Hinv2.
Qed.

Lemma wrap_lines_words (text : str) :
  ∃ bodies,
    wrap_lines contentWidth text prefix = app prefix <$> bodies ∧
    mjoin (words_of <$> bodies) = words_of text.
Proof.
  destruct (lines_fold_words (split_space text) [] [] [])
    as (bodies & body & Hfold & Hinv).
  - apply split_space_no_space.
  - done.
  - exists (bodies ++ [body]). split; [|done].
    unfold wrap_lines.     rewrite app_nil_r in Hfold. simpl in Hfold. rewrite Hfold.
    by rewrite fmap_app.
Qed.

(** A word too long for a line is pushed alone behind the prefix. *)
Lemma lines_step_long (seen : list str) lines cur w :
  len prefix ≤ len cur →
  (∀ v, v ∈ seen → contentWidth - 2 < len (prefix ++ v) →
        prefix ++ v ∈ lines ∨ cur = prefix ++ v) →
  len prefix ≤ len (lines_step prefix maxWidth (lines, cur) w).2 ∧
  (∀ v, v ∈ seen ++ [w] → contentWidth - 2 < len (prefix ++ v) →
        prefix ++ v ∈ (lines_step prefix maxWidth (lines, cur) w).1 ∨
        (lines_step prefix maxWidth (lines, cur) w).2 = prefix ++ v).
Proof.
  intros Hcur Hseen. pose proof (len_nonneg prefix) as Hp.
  pose proof (len_nonneg w) as Hw. simpl.
  destruct (Z.gtb_spec (len cur + len w + 1) maxWidth) as [Hgt|Hle]; simpl.
  - split; [rewrite len_app; lia|]. intros v Hv Hlong.
    apply elem_of_app in Hv as [Hv|Hv].
    + left. apply elem_of_app. destruct (Hseen v Hv Hlong) as [? | ->]; [by left|].
      right. by apply list_elem_of_singleton.
    + apply list_elem_of_singleton in Hv as ->. by right.
  - split; [rewrite !len_app; pose proof (len_nonneg (if str_same cur prefix then [] else [SPACE])); lia|].
    intros v Hv Hlong. apply elem_of_app in Hv as [Hv|Hv].
    + destruct (Hseen v Hv Hlong) as [? | ->]; [by left|]. lia.
    + apply list_elem_of_singleton in Hv as ->. rewrite len_app in Hlong. lia.
Qed.

Lemma lines_fold_long (ws seen : list str) lines cur :
  len prefix ≤ len cur →
  (∀ v, v ∈ seen → contentWidth - 2 < len (prefix ++ v) →
        prefix ++ v ∈ lines ∨ cur = prefix ++ v) →
  ∀ v, v ∈ seen ++ ws → contentWidth - 2 < len (prefix ++ v) →
       prefix ++ v ∈ (foldl (lines_step prefix maxWidth) (lines, cur) ws).1 ∨
       (foldl (lines_step prefix maxWidth) (lines, cur) ws).2 = prefix ++ v.
Proof.
  revert seen lines cur. induction ws as [|w ws IH]; intros seen lines cur Hcur Hseen.
  - rewrite app_nil_r. exact Hseen.
  - cbn [foldl]. destruct (lines_step_long seen lines cur w Hcur Hseen) as [H1 H2].
    destruct (lines_step prefix maxWidth (lines, cur) w) as [lines' cur'].
    intros v Hv. apply (IH (seen ++ [w]) lines' cur' H1 H2).
    by rewrite <- app_assoc.
Qed.

Lemma wrap_lines_long (text w : str) :
  w ∈ split_space text → contentWidth - 2 < len (prefix ++ w) →
  prefix ++ w ∈ wrap_lines contentWidth text prefix.
Proof.
  intros Hw Hlong. unfold wrap_lines.
  pose proof (lines_fold_long (split_space text) [] [] prefix) as H.
  destruct (foldl _ _ _) as [lines cur]. simpl in H.
  apply elem_of_app. destruct (H ltac:(lia) ltac:(by intros ? ?%elem_of_nil) w Hw Hlong) as [? | ->].
  - by left.
  - right. by apply list_elem_of_singleton.
Qed.

(** Words that all pass the test of the loop end up on the current line. *)
Lemma lines_fold_fits (ws : list str) (lines : list str) (body : str) :
  body ≠ [] →
  len prefix + len body + len (mjoin (cons SPACE <$> ws)) ≤ maxWidth →
  foldl (lines_step prefix maxWidth) (lines, prefix ++ body) ws =
  (lines, prefix ++ body ++ mjoin (cons SPACE <$> ws)).
Proof.
  revert body. induction ws as [|w ws IH]; intros body Hne Hfit.
  - simpl. by rewrite app_nil_r.
  - cbn [foldl].
    change (mjoin (cons SPACE <$> w :: ws))
      with ((SPACE :: w) ++ mjoin (cons SPACE <$> ws)) in *.
    rewrite len_app, len_cons in Hfit.
    pose proof (len_nonneg (mjoin (cons SPACE <$> ws))).
    unfold lines_step at 2. rewrite len_app.
    destruct (Z.gtb_spec (len prefix + len body + len w + 1) maxWidth) as [?|_];
      [lia|].
    unfold str_same. case_bool_decide as Heq.
    { apply (f_equal length) in Heq. rewrite length_app in Heq.
      destruct body; [done|simpl in Heq; lia]. }
    rewrite <- app_assoc.
    rewrite (IH (body ++ [SPACE] ++ w)).
    + by rewrite <- !app_assoc.
    + by destruct body.
    + rewrite !len_app, len_cons, len_nil. lia.
Qed.

Lemma join_space_cons (w : str) (ws : list str) :
  join [SPACE] (w :: ws) = w ++ mjoin (cons SPACE <$> ws).
Proof.
  revert w. induction ws as [|v ws IH]; intros w.
  - simpl. by rewrite app_nil_r.
  - change (join [SPACE] (w :: v :: ws)) with (w ++ [SPACE] ++ join [SPACE] (v :: ws)).
    by rewrite IH.
Qed.

(** A text that passes the test of the loop as a whole gives one line. *)
Lemma wrap_single_line (text : str) :
  2 * len prefix + len text + 3 ≤ contentWidth →
  (∀ rest, text ≠ SPACE :: rest) →
  wrap contentWidth text prefix = [pad contentWidth (prefix ++ text)].
Proof.
  intros Hfit Hstart. rewrite wrap_pad. unfold wrap_lines.
  pose proof (join_split_space text) as Hjoin.
  destruct (split_space text) as [|w ws] eqn:Hsplit.
  { by destruct (split_space_nonempty text). }
  rewrite join_space_cons in Hjoin.
  assert (len text = len w + len (mjoin (cons SPACE <$> ws))) as Hlen.
  { by rewrite <- Hjoin at 1; rewrite len_app. }
  pose proof (len_nonneg (mjoin (cons SPACE <$> ws))).
  pose proof (len_nonneg w). pose proof (len_nonneg prefix).
  cbn [foldl]. unfold lines_step at 2.
  destruct (Z.gtb_spec (len prefix + len w + 1) maxWidth) as [?|_]; [lia|].
  unfold str_same. rewrite bool_decide_eq_true_2 by done. simpl app at 1.
  destruct w as [|c w].
  - destruct ws as [|v ws].
    + simpl in Hjoin. subst text. simpl. by rewrite app_nil_r.
    + simpl in Hjoin. by destruct (Hstart (v ++ mjoin (cons SPACE <$> ws))).
  - rewrite lines_fold_fits; [|done|lia].
    by rewrite Hjoin.
Qed.
End Wrap.

(** The bound where the prefix itself fits, that is, has at most
    [contentWidth - 2] characters: every line that [wrap] pads has at
    most [contentWidth - 2] characters or is the prefix followed by one
    single word of the text; a word too long for that width is on a line of
    its own; and the non-empty words of the text appear on the lines whole
    and in their order, so lines break at spaces only. *)
Theorem wrap_lines_bound (contentWidth : Z) (text prefix : str) :
  len prefix ≤ contentWidth - 2 →
  wrap contentWidth text prefix =
    pad contentWidth <$> wrap_lines contentWidth text prefix ∧
  (∀ raw, raw ∈ wrap_lines contentWidth text prefix →
     len raw ≤ contentWidth - 2 ∨
     ∃ w, w ∈ split_space text ∧ raw = prefix ++ w) ∧
  (∀ w, w ∈ split_space text → contentWidth - 2 < len (prefix ++ w) →
     prefix ++ w ∈ wrap_lines contentWidth text prefix) ∧
  (∃ bodies,
     wrap_lines contentWidth text prefix = app prefix <$> bodies ∧
     mjoin (words_of <$> bodies) = words_of text).
Proof.
  intros Hprefix. split; [apply wrap_pad|].
  split; [|split; [apply wrap_lines_long | apply wrap_lines_words]].
  intros raw Hraw.
  pose proof (wrap_lines_shape contentWidth prefix text) as Hall.
  rewrite Forall_forall in Hall.
  destruct (Hall raw Hraw) as [-> | [H | H]]; [by left|by right|].
  left. pose proof (len_nonneg prefix). lia.
Qed.

(** The same at [contentWidth = 40], for a list of synonyms behind two
    spaces. *)
Lemma wrap_lines_bound_witness :
  wrap 40 (lit "learned, scholarly, erudite, bookish") (lit "  ") =
    pad 40 <$> wrap_lines 40 (lit "learned, scholarly, erudite, bookish") (lit "  ") ∧
  (∀ raw,
     raw ∈ wrap_lines 40 (lit "learned, scholarly, erudite, bookish") (lit "  ") →
     len raw ≤ 40 - 2 ∨
     ∃ w, w ∈ split_space (lit "learned, scholarly, erudite, bookish") ∧
          raw = lit "  " ++ w) ∧
  (∀ w, w ∈ split_space (lit "learned, scholarly, erudite, bookish") →
     40 - 2 < len (lit "  " ++ w) →
     lit "  " ++ w ∈
       wrap_lines 40 (lit "learned, scholarly, erudite, bookish") (lit "  ")) ∧
  (∃ bodies,
     wrap_lines 40 (lit "learned, scholarly, erudite, bookish") (lit "  ") =
       app (lit "  ") <$> bodies ∧
     mjoin (words_of <$> bodies) =
       words_of (lit "learned, scholarly, erudite, bookish")).
Proof.
  apply (wrap_lines_bound 40 (lit "learned, scholarly, erudite, bookish") (lit "  ")).
  vm_compute. discriminate.
Defined.

(** The bound fails on a terminal narrower than the indentation: with
    [contentWidth = 3], prefix of two spaces and text [a], the first line is
    the bare prefix, two characters long, and no word of the text. *)
Lemma wrap_lines_bound_counterexample :
  ¬ (∀ raw, raw ∈ wrap_lines 3 (lit "a") (lit "  ") →
       len raw ≤ 3 - 2 ∨
       ∃ w, w ∈ split_space (lit "a") ∧ raw = lit "  " ++ w).
Proof.
  intros H. destruct (H (lit "  ")) as [Hlen|(w & Hw & Hraw)].
  - vm_compute. left.
  - vm_compute in Hlen. by apply Hlen.
  - vm_compute in Hw. apply list_elem_of_singleton in Hw. subst w. discriminate.
Qed.

(** C2 at [contentWidth = 3], prefix of two spaces and text [a]: the word
    does not pass the test, and the loop pushes the line it has, which is
    still the bare prefix, before it starts the line of the word. [wrap]
    returns two lines; the first holds no word and has two characters before
    padding, more than [contentWidth - 2 = 1]. *)
Theorem wrap_pushes_bare_prefix :
  wrap_lines 3 (lit "a") (lit "  ") = [lit "  "; lit "  " ++ lit "a"] ∧
  wrap 3 (lit "a") (lit "  ") = [pad 3 (lit "  "); pad 3 (lit "  " ++ lit "a")] ∧
  3 - 2 < len (lit "  ") ∧
  (∀ w, w ∈ split_space (lit "a") → lit "  " ≠ lit "  " ++ w).
Proof.
  split; [by vm_compute|]. split; [by vm_compute|]. split; [by vm_compute|].
  intros w Hw. vm_compute in Hw. apply list_elem_of_singleton in Hw.
  subst w. discriminate.
Qed.

(** C9 at [contentWidth = 40]: four synonyms behind a prefix of two spaces
    make 38 characters, which is what a line may hold, yet [wrap] breaks
    before the last word and returns two lines. *)
Theorem wrap_fitting_text_two_lines :
  len (lit "  " ++ lit "learned, scholarly, erudite, bookish") ≤ 40 - 2 ∧
  wrap 40 (lit "learned, scholarly, erudite, bookish") (lit "  ") =
    [pad 40 (lit "  learned, scholarly, erudite,"); pad 40 (lit "  bookish")] ∧
  wrap 40 (lit "learned, scholarly, erudite, bookish") (lit "  ") ≠
    [pad 40 (lit "  " ++ lit "learned, scholarly, erudite, bookish")].
Proof. split; [by vm_compute|]. split; by vm_compute. Qed.

(** A single word that fits is even preceded by a blank line: at
    [contentWidth = 10] the text [abcdef] behind two spaces has the 8
    characters that a line may hold. *)
Lemma wrap_fitting_word_blank_line :
  len (lit "  " ++ lit "abcdef") ≤ 10 - 2 ∧
  wrap 10 (lit "abcdef") (lit "  ") =
    [pad 10 (lit "  "); pad 10 (lit "  " ++ lit "abcdef")].
Proof. split; by vm_compute. Qed.

(** ** displayWord *)

Lemma mjoin_replicate_singleton {A} (n : nat) (x : A) :
  mjoin (replicate n [x]) = replicate n x.
Proof. induction n as [|n IH]; simpl; [done|]. by rewrite IH. Qed.

Lemma repeat_str_ok (u : N) (count : Z) :
  0 ≤ count → repeat_str [u] count = inr (replicate (Z.to_nat count) u).
Proof.
  intros H. unfold repeat_str.
  destruct (Z.ltb_spec count 0); [lia|]. by rewrite mjoin_replicate_singleton.
Qed.

Lemma repeat_str_negative (s : str) (count : Z) :
  count < 0 →
  repeat_str s count =
  inl (mkExn KRangeError (lit "Invalid count value: " ++ Number_toString count)).
Proof. intros H. unfold repeat_str. by destruct (Z.ltb_spec count 0); [|lia]. Qed.

(** What [displayWord] prints for an entry on a terminal of at least four
    columns. *)
Lemma displayWord_trace (c : Colors) (terminalWidth : Z) (entry : WordEntry)
    (rest : list WordEntry) :
  4 ≤ terminalWidth →
  let cw := Z.min 80 (terminalWidth - 4) in
  displayWord c terminalWidth (entry :: rest) =
  (Stdout (bold c (gray c (border BOX_TL BOX_TR cw)))
   :: header c cw entry
   :: Stdout (bold c (gray c (border BOX_L BOX_R cw)))
   :: mjoin (imap (meaning_events c cw (length (meanings entry))) (meanings entry))
   ++ thesaurus_events c cw entry (bold c (gray c (border BOX_L BOX_R cw)))
   ++ [Stdout (bold c (gray c (border BOX_BL BOX_BR cw)))],
   inr tt).
Proof.
  intros Htw cw. unfold displayWord. fold cw.
  rewrite repeat_str_ok by (unfold cw; lia).
  unfold border. by simpl.
Qed.

Lemma displayWord_throws (c : Colors) (terminalWidth : Z) (entry : WordEntry)
    (rest : list WordEntry) :
  terminalWidth < 4 →
  displayWord c terminalWidth (entry :: rest) =
  ([], inl (mkExn KRangeError
              (lit "Invalid count value: " ++ Number_toString (terminalWidth - 4)))).
Proof.
  intros Htw. unfold displayWord.
  rewrite repeat_str_negative by lia.
  by replace (Z.min 80 (terminalWidth - 4)) with (terminalWidth - 4) by lia.
Qed.

Lemma len_border (left right : N) (cw : Z) :
  0 ≤ cw → len (border left right cw) = cw + 2.
Proof.
  intros H. unfold border. rewrite !len_app, !len_cons, !len_nil.
  unfold len. rewrite length_replicate. lia.
Qed.

Lemma len_framed (cw : Z) (content s : str) :
  framed cw content s → len s = Z.max (cw + 2) (len content + 3).
Proof.
  intros ->. rewrite !len_app, !len_cons, !len_nil, len_padEnd. lia.
Qed.

Lemma Forall_mjoin_imap {A B} (P : B → Prop) (f : nat → A → list B) (l : list A) :
  (∀ i x, Forall P (f i x)) → Forall P (mjoin (imap f l)).
Proof.
  revert f. induction l as [|x l IH]; intros f Hf; simpl; [constructor|].
  apply Forall_app. split; [apply Hf|]. apply IH. intros i y. apply Hf.
Qed.

Lemma mjoin_imap_fmap {A B C} (g : B → C) (f : nat → A → list C)
    (h : nat → A → list B) (l : list A) :
  (∀ i x, f i x = g <$> h i x) → mjoin (imap f l) = g <$> mjoin (imap h l).
Proof.
  revert f h. induction l as [|x l IH]; intros f h Hfh; [done|].
  simpl. rewrite fmap_app, Hfh. f_equal. apply IH. intros i y. apply Hfh.
Qed.

Section Plain.
Variable cw : Z.
Local Abbreviation plain := (colors false).
Local Abbreviation draw := (λ l : BoxLine, Stdout (render_line cw l)).

Lemma wrap_draw (f : str → str) (text prefix : str) :
  (∀ s, f s = s) →
  (λ line, print plain (f line)) <$> wrap cw text prefix =
  draw <$> (Content <$> wrap_lines cw text prefix).
Proof.
  intros Hf. rewrite wrap_pad, <- !list_fmap_compose.
  apply list_fmap_ext. intros i raw _. simpl. by rewrite Hf.
Qed.

Lemma definition_draw (defIndex : nat) (def : Definition_) :
  definition_events plain cw defIndex def =
  draw <$> definition_layout cw defIndex def.
Proof.
  unfold definition_events, definition_layout. rewrite fmap_app. f_equal.
  - by apply (wrap_draw id).
  - destruct (example def) as [ex|]; [|done].
    destruct (truthy ex); [|done]. by apply (wrap_draw (gray plain)).
Qed.

Lemma meaning_draw (count index : nat) (meaning : Meaning) :
  meaning_events plain cw count index meaning =
  draw <$> meaning_layout cw count index meaning.
Proof.
  unfold meaning_events, meaning_layout.
  rewrite fmap_cons, fmap_app. f_equal. f_equal.
  - apply mjoin_imap_fmap. apply definition_draw.
  - by destruct (_ <? _).
Qed.
End Plain.

(** The block that [displayWord] prints with colours off is its layout,
    drawn line by line. *)
Lemma displayWord_layout (terminalWidth : Z) (entry : WordEntry)
    (rest : list WordEntry) :
  4 ≤ terminalWidth →
  trace (displayWord (colors false) terminalWidth (entry :: rest)) =
  (λ l, Stdout (render_line (Z.min 80 (terminalWidth - 4)) l)) <$>
    layout (Z.min 80 (terminalWidth - 4)) entry.
Proof.
  intros Htw. rewrite displayWord_trace by done. unfold trace. cbn [fst].
  set (cw := Z.min 80 (terminalWidth - 4)). unfold layout.
  rewrite !fmap_cons, !fmap_app. f_equal. f_equal. f_equal. f_equal.
  { apply mjoin_imap_fmap. intros i m. apply meaning_draw. }
  f_equal. unfold thesaurus_events. destruct (0 <? _); [|done].
  rewrite !fmap_cons. f_equal. f_equal. by apply (wrap_draw cw id).
Qed.

(** C1, as the code has it with colours off: on a terminal of at least four
    columns the block is its layout drawn line by line. A border has exactly
    [contentWidth + 2] characters. A content line is its content behind one
    space, padded on the right to at least [contentWidth - 1] characters and
    never cut, between the two border glyphs; it has
    [max (contentWidth + 2) (length content + 3)] characters, which is
    [contentWidth + 2] exactly when the content has at most
    [contentWidth - 1]. *)
Theorem displayWord_line_widths (terminalWidth : Z) (entry : WordEntry)
    (rest : list WordEntry) :
  4 ≤ terminalWidth →
  let contentWidth := Z.min 80 (terminalWidth - 4) in
  trace (displayWord (colors false) terminalWidth (entry :: rest)) =
    (λ l, Stdout (render_line contentWidth l)) <$> layout contentWidth entry ∧
  (∀ a b, len (render_line contentWidth (Border a b)) = contentWidth + 2) ∧
  (∀ content,
     len (padEnd content (contentWidth - 1)) =
       Z.max (len content) (contentWidth - 1) ∧
     len (render_line contentWidth (Content content)) =
       Z.max (contentWidth + 2) (len content + 3) ∧
     (len (render_line contentWidth (Content content)) = contentWidth + 2 ↔
      len content ≤ contentWidth - 1)).
Proof.
  intros Htw cw. split; [by apply displayWord_layout|]. split.
  - intros a b. apply len_border. unfold cw. lia.
  - intros content. split; [apply len_padEnd|].
    assert (len (render_line cw (Content content)) =
            Z.max (cw + 2) (len content + 3)) as Hlen.
    { by apply (len_framed cw content). }
    split; [done|]. rewrite Hlen. lia.
Qed.

(** C1 on 14 columns for [sample_entry], whose block has a border of 12
    characters and the line of [knowledgeable] of 18. *)
Lemma displayWord_line_widths_witness :
  let contentWidth := Z.min 80 (14 - 4) in
  trace (displayWord (colors false) 14 [sample_entry]) =
    (λ l, Stdout (render_line contentWidth l)) <$> layout contentWidth sample_entry ∧
  (∀ a b, len (render_line contentWidth (Border a b)) = contentWidth + 2) ∧
  (∀ content,
     len (padEnd content (contentWidth - 1)) =
       Z.max (len content) (contentWidth - 1) ∧
     len (render_line contentWidth (Content content)) =
       Z.max (contentWidth + 2) (len content + 3) ∧
     (len (render_line contentWidth (Content content)) = contentWidth + 2 ↔
      len content ≤ contentWidth - 1)).
Proof. apply (displayWord_line_widths 14 sample_entry []). lia. Defined.

(** C1 as stated fails at [contentWidth = 10]: the definition
    [knowledgeable] is one word of 13 characters, its line overflows and is
    18 characters long where the borders have 12. *)
Lemma displayWord_line_widths_counterexample :
  ¬ (∀ e, e ∈ trace (displayWord (colors false) 14 [sample_entry]) →
       ∃ s, e = Stdout s ∧ len s = 10 + 2).
Proof.
  intros H.
  destruct (H (Stdout ([BOX_V] ++ pad 10 (lit "  knowledgeable") ++ [BOX_V])))
    as (s & Hs & Hlen).
  - apply list_elem_of_lookup. exists 5%nat. by vm_compute.
  - inversion Hs; subst s. vm_compute in Hlen. discriminate.
Qed.

(** With colours on, the default, [padEnd] counts the escape sequences of a
    styled content: on 44 columns the header, the part of speech and the
    thesaurus label of [sample_entry] show 12, 32 and 23 characters where
    the borders show 42. *)
Lemma displayWord_colored_widths :
  (λ e, len (visible (printed e))) <$>
    trace (displayWord (colors true) 44 [sample_entry]) =
  [42; 12; 42; 32; 42; 42; 23; 42; 42].
Proof. by vm_compute. Qed.

(** C6, as the code has it: [contentWidth] is [min 80 (availableWidth - 4)]
    with no floor. From four columns on the block is printed, between a top
    and a bottom border of that width; below four columns drawing the border
    throws a RangeError before anything is printed. *)
Theorem displayWord_width (c : Colors) (terminalWidth : Z) (entry : WordEntry)
    (rest : list WordEntry) :
  let contentWidth := Z.min 80 (terminalWidth - 4) in
  if terminalWidth <? 4 then
    displayWord c terminalWidth (entry :: rest) =
    ([], inl (mkExn KRangeError
                (lit "Invalid count value: " ++ Number_toString contentWidth)))
  else
    outcome (displayWord c terminalWidth (entry :: rest)) = inr tt ∧
    ∃ inner,
      trace (displayWord c terminalWidth (entry :: rest)) =
      Stdout (bold c (gray c (border BOX_TL BOX_TR contentWidth)))
      :: inner ++ [Stdout (bold c (gray c (border BOX_BL BOX_BR contentWidth)))].
Proof.
  intros cw. destruct (Z.ltb_spec terminalWidth 4) as [Hlt|Hge].
  - rewrite displayWord_throws by done.
    by replace cw with (terminalWidth - 4) by (unfold cw; lia).
  - rewrite displayWord_trace by done. split; [done|].
    exists (header c cw entry
            :: Stdout (bold c (gray c (border BOX_L BOX_R cw)))
            :: mjoin (imap (meaning_events c cw (length (meanings entry)))
                           (meanings entry))
            ++ thesaurus_events c cw entry (bold c (gray c (border BOX_L BOX_R cw)))).
    unfold trace. cbn [fst]. fold cw. cbn [app]. by rewrite <- app_assoc.
Qed.

(** C6 as stated fails on a terminal of three columns: nothing is clamped,
    [displayWord] does not return normally. *)
Lemma displayWord_width_counterexample :
  ¬ (∃ lines, displayWord (colors false) 3 [sample_entry] = (lines, inr tt)).
Proof. intros [lines H]. vm_compute in H. discriminate. Qed.

(** On three columns [main] prints the message of the RangeError and no
    line of the block. *)
Lemma main_narrow_terminal :
  main (render_env 3) =
  ([Stderr ([NEWLINE] ++ lit "Error: Invalid count value: -1" ++ [NEWLINE])],
   inr tt).
Proof. by vm_compute. Qed.

(** ** Sets and the merge of the word lists *)

Section SetLemmas.
Context {A : Type} `{EqDecision A} (same : A → A → bool).
Hypothesis same_spec : ∀ x y, same x y = true ↔ x = y.

Lemma existsb_same (x : A) (s : list A) : existsb (same x) s = true ↔ x ∈ s.
Proof.
  rewrite existsb_exists. split.
  - intros (y & Hy & Hxy). apply same_spec in Hxy. subst y.
    by apply list_elem_of_In.
  - intros Hx. exists x. split; [by apply list_elem_of_In | by apply same_spec].
Qed.

Lemma Set_add_old (s : list A) (x : A) : x ∈ s → Set_add same s x = s.
Proof.
  intros Hx. unfold Set_add.
  by rewrite (proj2 (existsb_same x s) Hx).
Qed.

Lemma Set_add_new (s : list A) (x : A) : x ∉ s → Set_add same s x = s ++ [x].
Proof.
  intros Hx. unfold Set_add.
  destruct (existsb (same x) s) eqn:E; [|done].
  by apply existsb_same in E.
Qed.

(** Adding to a set [acc] the items of [l] appends the first occurrences of
    the new ones. *)
Lemma foldl_Set_add (l acc : list A) :
  foldl (Set_add same) acc l = acc ++ filter (λ x, x ∉ acc) (first_occurrences l).
Proof.
  revert acc. induction l as [|x l IH]; intros acc.
  - simpl. by rewrite app_nil_r.
  - cbn [foldl first_occurrences]. rewrite filter_cons, list_filter_filter.
    destruct (decide (x ∈ acc)) as [Hin|Hnin].
    + rewrite Set_add_old, IH by done. rewrite decide_False by tauto.
      f_equal. apply list_filter_iff. intros y. split; [|tauto].
      intros Hy. split; [done|]. by intros ->.
    + rewrite Set_add_new, IH by done. rewrite decide_True by done.
      rewrite <- app_assoc. simpl. do 2 f_equal.
      apply list_filter_iff. intros y.
      rewrite elem_of_app, list_elem_of_singleton. tauto.
Qed.

Lemma new_Set_first_occurrences (l : list A) :
  new_Set same l = first_occurrences l.
Proof.
  unfold new_Set. rewrite foldl_Set_add. simpl.
  induction (first_occurrences l) as [|x k IH]; [done|].
  rewrite filter_cons, decide_True by apply not_elem_of_nil. by rewrite IH.
Qed.
End SetLemmas.

Section FirstOccurrences.
Context {A : Type} `{EqDecision A}.
Implicit Types l d c : list A.

Local Abbreviation eqb := (λ x y : A, bool_decide (x = y)).

Lemma eqb_spec (x y : A) : eqb x y = true ↔ x = y.
Proof. apply bool_decide_eq_true. Qed.

Lemma elem_of_first_occurrences l (x : A) : x ∈ first_occurrences l ↔ x ∈ l.
Proof.
  induction l as [|y l IH]; [done|]. simpl.
  rewrite !elem_of_cons, list_elem_of_filter, IH.
  destruct (decide (x = y)); tauto.
Qed.

Lemma NoDup_first_occurrences l : NoDup (first_occurrences l).
Proof.
  induction l as [|y l IH]; simpl; constructor.
  - rewrite list_elem_of_filter. tauto.
  - by apply NoDup_filter.
Qed.

Lemma first_occurrences_NoDup l : NoDup l → first_occurrences l = l.
Proof.
  induction 1 as [|x l Hx _ IH]; [done|]. simpl. rewrite IH. f_equal.
  clear IH. induction l as [|y l IHl]; [done|].
  apply not_elem_of_cons in Hx as [Hxy Hx].
  rewrite filter_cons, decide_True by congruence. by rewrite IHl.
Qed.

Lemma first_occurrences_app d c :
  first_occurrences (d ++ c) =
  first_occurrences d ++ filter (λ w, w ∉ d) (first_occurrences c).
Proof.
  rewrite <- (new_Set_first_occurrences eqb eqb_spec (d ++ c)). unfold new_Set.
  rewrite foldl_app, (foldl_Set_add eqb eqb_spec c).
  fold (new_Set eqb d). rewrite (new_Set_first_occurrences eqb eqb_spec d).
  f_equal. apply list_filter_iff. intros w. by rewrite elem_of_first_occurrences.
Qed.

Lemma first_occurrences_prefix l k :
  first_occurrences l `prefix_of` first_occurrences (l ++ k).
Proof. rewrite first_occurrences_app. by eexists. Qed.

(** The place of a word in the result is the number of distinct words before
    its first occurrence. *)
Lemma first_occurrences_lookup l (i : nat) (w : A) :
  first_at l i w →
  first_occurrences l !! length (first_occurrences (take i l)) = Some w.
Proof.
  intros [Hi Hw]. pose proof (take_drop_middle l i w Hi) as Hl.
  set (t := take i l) in *. set (r := drop (S i) l) in *.
  clearbody t r. subst l. clear Hi.
  rewrite first_occurrences_app. simpl.
  rewrite filter_cons, decide_True by done.
  by rewrite list_lookup_middle.
Qed.

Lemma first_occurrences_take_lt l (i j : nat) (w : A) :
  first_at l i w → (i < j)%nat →
  (length (first_occurrences (take i l)) < length (first_occurrences (take j l)))%nat.
Proof.
  intros [Hi Hw] Hij.
  assert (take (S i) l = take i l ++ [w]) as HS by by apply take_S_r.
  assert (first_occurrences (take (S i) l) `prefix_of` first_occurrences (take j l)) as Hp.
  { rewrite <- (take_drop (S i) (take j l)), take_take.
    replace (S i `min` j)%nat with (S i) by lia. apply first_occurrences_prefix. }
  apply prefix_length in Hp. rewrite HS, first_occurrences_app in Hp.
  simpl in Hp. rewrite filter_cons, decide_True, length_app in Hp by done.
  simpl in Hp. lia.
Qed.
End FirstOccurrences.

Lemma str_same_spec (a b : str) : str_same a b = true ↔ a = b.
Proof. apply bool_decide_eq_true. Qed.

Lemma merge_words (d c : list str) :
  merge str_same d c =
  match d ++ c with
  | [] => inl (mkExn KError EMPTY_LIST_MESSAGE)
  | _ :: _ => inr (first_occurrences (d ++ c))
  end.
Proof.
  unfold merge. rewrite (new_Set_first_occurrences str_same str_same_spec).
  by destruct (d ++ c).
Qed.

(** The size of the pool of two lists of strings compared as strings. *)
Lemma merge_words_size (d c : list str) :
  match merge str_same d c with
  | inr pool =>
      length pool = size (list_to_set (d ++ c) : gset str) ∧ pool ≠ []
  | inl e =>
      e = mkExn KError EMPTY_LIST_MESSAGE ∧
      size (list_to_set (d ++ c) : gset str) = 0%nat
  end ∧
  merge str_same [] [] = inl (mkExn KError EMPTY_LIST_MESSAGE).
Proof.
  split; [|done]. rewrite merge_words.
  destruct (d ++ c) as [|x l] eqn:E; [done|]. split; [|done].
  rewrite <- (size_list_to_set (C := gset str)) by apply NoDup_first_occurrences.
  f_equal. apply set_eq. intros w.
  by rewrite !elem_of_list_to_set, elem_of_first_occurrences.
Qed.

(** The order of the pool of two lists of strings compared as strings. *)
Lemma merge_words_order (d c pool : list str) :
  merge str_same d c = inr pool →
  pool = first_occurrences d ++ filter (λ w, w ∉ d) (first_occurrences c) ∧
  (NoDup d → d `prefix_of` pool) ∧
  NoDup pool ∧
  (∀ w, w ∈ pool ↔ w ∈ d ∨ w ∈ c) ∧
  (∀ (i j : nat) (w v : str),
     first_at (d ++ c) i w → first_at (d ++ c) j v → (i < j)%nat →
     ∃ a b : nat, pool !! a = Some w ∧ pool !! b = Some v ∧ (a < b)%nat).
Proof.
  rewrite merge_words. intros Hpool.
  assert (pool = first_occurrences (d ++ c)) as ->.
  { destruct (d ++ c); congruence. }
  clear Hpool. split; [apply first_occurrences_app|]. split.
  { intros Hd. rewrite first_occurrences_app, (first_occurrences_NoDup d Hd).
    by eexists. }
  split; [apply NoDup_first_occurrences|]. split.
  { intros w. by rewrite elem_of_first_occurrences, elem_of_app. }
  intros i j w v Hw Hv Hij.
  exists (length (first_occurrences (take i (d ++ c)))),
         (length (first_occurrences (take j (d ++ c)))).
  split; [by apply first_occurrences_lookup|].
  split; [by apply first_occurrences_lookup|].
  by apply (first_occurrences_take_lt _ i j w).
Qed.

(** The word lists inside the JSON documents. *)
Lemma existsb_SameValueZero (x : str) (acc : list str) :
  existsb (SameValueZero (JStr x)) (JStr <$> acc) = existsb (str_same x) acc.
Proof.
  induction acc as [|y acc IH]; [done|].
  rewrite fmap_cons. cbn [existsb SameValueZero]. by rewrite IH.
Qed.

Lemma foldl_Set_add_JStr (l acc : list str) :
  foldl (Set_add SameValueZero) (JStr <$> acc) (JStr <$> l) =
  JStr <$> foldl (Set_add str_same) acc l.
Proof.
  revert acc. induction l as [|x l IH]; intros acc; [done|].
  rewrite fmap_cons. cbn [foldl]. rewrite <- IH. f_equal.
  unfold Set_add. rewrite existsb_SameValueZero.
  destruct (existsb (str_same x) acc); [done|]. by rewrite fmap_app.
Qed.

Lemma merge_JStr (d c : list str) :
  merge SameValueZero (JStr <$> d) (JStr <$> c) =
  match merge str_same d c with
  | inl e => inl e
  | inr pool => inr (JStr <$> pool)
  end.
Proof.
  unfold merge, new_Set. rewrite <- fmap_app.
  change (@nil json) with (JStr <$> @nil str).
  rewrite (foldl_Set_add_JStr (d ++ c) []).
  unfold len. rewrite length_fmap. by destruct (_ =? 0).
Qed.

Lemma JStr_inj (a b : str) : JStr a = JStr b → a = b.
Proof. by intros [= ->]. Qed.

#[local] Instance JStr_Inj : Inj (=) (=) JStr := JStr_inj.

(** C5: the merge of [loadWordList], which compares the decoded values like
    a [Set] does, gives for two lists of strings a pool of as many words as
    there are distinct strings in the two lists; it fails, with the error of
    the empty list, exactly when there is none, and so it does for two empty
    lists. *)
Theorem merge_size (d c : list str) :
  match merge SameValueZero (JStr <$> d) (JStr <$> c) with
  | inr pool =>
      length pool = size (list_to_set (d ++ c) : gset str) ∧ pool ≠ []
  | inl e =>
      e = mkExn KError EMPTY_LIST_MESSAGE ∧
      size (list_to_set (d ++ c) : gset str) = 0%nat
  end ∧
  merge SameValueZero [] [] = inl (mkExn KError EMPTY_LIST_MESSAGE).
Proof.
  split; [|done]. rewrite merge_JStr.
  destruct (merge_words_size d c) as [H _].
  destruct (merge str_same d c) as [e|pool]; [done|].
  destruct H as [Hlen Hne]. rewrite length_fmap. split; [done|].
  by destruct pool.
Qed.

(** C10: the pool that the merge of [loadWordList] gives for two lists of
    strings lists the words in the order of their first occurrence: the
    default words, each once and in their order, then the custom words that
    are not default words, each once and in their order; of two words the
    one that occurs first in the concatenated lists comes first in the
    pool. *)
Theorem merge_order (d c : list str) (pool : list json) :
  merge SameValueZero (JStr <$> d) (JStr <$> c) = inr pool →
  pool =
    JStr <$> (first_occurrences d ++ filter (λ w, w ∉ d) (first_occurrences c)) ∧
  (NoDup d → (JStr <$> d) `prefix_of` pool) ∧
  NoDup pool ∧
  (∀ w, JStr w ∈ pool ↔ w ∈ d ∨ w ∈ c) ∧
  (∀ (i j : nat) (w v : str),
     first_at (d ++ c) i w → first_at (d ++ c) j v → (i < j)%nat →
     ∃ a b : nat,
       pool !! a = Some (JStr w) ∧ pool !! b = Some (JStr v) ∧ (a < b)%nat).
Proof.
  rewrite merge_JStr. intros Hpool.
  destruct (merge str_same d c) as [e|words] eqn:Hwords; [done|].
  injection Hpool as <-.
  destruct (merge_words_order d c words Hwords)
    as (Heq & Hprefix & Hnodup & Hmem & Horder).
  split; [by rewrite Heq|]. split.
  { intros Hd. destruct (Hprefix Hd) as [k ->]. exists (JStr <$> k).
    by rewrite fmap_app. }
  split; [by apply (NoDup_fmap_2 JStr)|]. split.
  { intros w. by rewrite (list_elem_of_fmap_inj JStr). }
  intros i j w v Hw Hv Hij.
  destruct (Horder i j w v Hw Hv Hij) as (a & b & Ha & Hb & Hab).
  exists a, b. rewrite !list_lookup_fmap, Ha, Hb. done.
Qed.

(** C10 for the default list [alpha, beta] and the custom list
    [beta, gamma]. *)
Lemma merge_order_witness :
  [JStr (lit "alpha"); JStr (lit "beta"); JStr (lit "gamma")] =
    JStr <$> (first_occurrences alpha_beta ++
              filter (λ w, w ∉ alpha_beta)
                (first_occurrences [lit "beta"; lit "gamma"])) ∧
  (NoDup alpha_beta →
   (JStr <$> alpha_beta) `prefix_of`
     [JStr (lit "alpha"); JStr (lit "beta"); JStr (lit "gamma")]) ∧
  NoDup [JStr (lit "alpha"); JStr (lit "beta"); JStr (lit "gamma")] ∧
  (∀ w, JStr w ∈ [JStr (lit "alpha"); JStr (lit "beta"); JStr (lit "gamma")] ↔
        w ∈ alpha_beta ∨ w ∈ [lit "beta"; lit "gamma"]) ∧
  (∀ (i j : nat) (w v : str),
     first_at (alpha_beta ++ [lit "beta"; lit "gamma"]) i w →
     first_at (alpha_beta ++ [lit "beta"; lit "gamma"]) j v →
     (i < j)%nat →
     ∃ a b : nat,
       [JStr (lit "alpha"); JStr (lit "beta"); JStr (lit "gamma")] !! a =
         Some (JStr w) ∧
       [JStr (lit "alpha"); JStr (lit "beta"); JStr (lit "gamma")] !! b =
         Some (JStr v) ∧ (a < b)%nat).
Proof.
  apply (merge_order alpha_beta [lit "beta"; lit "gamma"]).
  vm_compute. reflexivity.
Defined.

(** ** loadWordList *)

Lemma trace_bind {A B} (m : M A) (k : A → M B) :
  trace (m ≫= k) =
  trace m ++ match outcome m with inr a => trace (k a) | inl _ => [] end.
Proof.
  destruct m as [out [e|a]]; unfold mbind, M_bind, bind, trace; simpl.
  - by rewrite app_nil_r.
  - by destruct (k a).
Qed.

(** Unfold the operations of [M]. *)
Ltac run_M :=
  unfold trace, outcome, try_catch, throw, lift, console_error, console_log,
    emit, mbind, M_bind, bind, mret, M_ret, ret in *;
  cbn [fst snd app] in *.

Lemma trace_lift {A} (r : Exn + A) : trace (lift r) = [].
Proof. done. Qed.

Lemma Forall_trace_bind {A B} (P : Event → Prop) (m : M A) (k : A → M B) :
  Forall P (trace m) → (∀ a, Forall P (trace (k a))) →
  Forall P (trace (m ≫= k)).
Proof.
  intros Hm Hk. rewrite trace_bind. apply Forall_app. split; [done|].
  destruct (outcome m); [constructor|apply Hk].
Qed.

Lemma load_default_stderr (c : Colors) (r : FetchResult json) :
  Forall (λ ev, is_stdout ev = false) (trace (load_default c r)).
Proof.
  unfold load_default.
  destruct r as [e|status body|status e]; [|destruct (ok status)..];
    run_M; simpl; by repeat constructor.
Qed.

Lemma load_custom_stderr (c : Colors) (home : option str)
    (ensureDir : option Exn) (r : ReadResult) :
  Forall (λ ev, is_stdout ev = false) (trace (load_custom c home ensureDir r)).
Proof.
  unfold load_custom. destruct home as [h|]; [|by constructor].
  destruct (truthy h); [|by constructor].
  destruct ensureDir as [e|]; [run_M; by constructor|].
  destruct r as [e|[e|v]].
  - run_M; simpl; destruct (kind e); by repeat constructor.
  - run_M; simpl; destruct (kind e); by repeat constructor.
  - run_M; simpl; destruct (isArray v); by repeat constructor.
Qed.

(** [loadWordList] writes to the error stream only. *)
Lemma loadWordList_stderr (env : Env) :
  Forall (λ ev, is_stdout ev = false) (trace (loadWordList env)).
Proof.
  unfold loadWordList.
  apply Forall_trace_bind; [apply load_default_stderr|]. intros defaultWords.
  apply Forall_trace_bind; [apply load_custom_stderr|]. intros customWords.
  apply Forall_trace_bind; [constructor|]. intros d.
  apply Forall_trace_bind; [constructor|]. intros cu. constructor.
Qed.

Lemma SameValueZero_eq (v w : json) : SameValueZero v w = true → v = w.
Proof.
  destruct v, w; simpl; try done; unfold str_same;
    intros H%bool_decide_eq_true; by subst.
Qed.

Lemma foldl_Set_add_keeps (l acc : list json) (y : json) :
  y ∈ acc ∨ y ∈ l → y ∈ foldl (Set_add SameValueZero) acc l.
Proof.
  revert acc. induction l as [|x l IH]; intros acc.
  - intros [H|H]; [done|by apply elem_of_nil in H].
  - intros H. cbn [foldl]. apply IH.
    assert (x ∈ Set_add SameValueZero acc x) as Hx.
    { unfold Set_add. destruct (existsb _ acc) eqn:E.
      - apply existsb_exists in E as (z & Hz & Hsame).
        apply SameValueZero_eq in Hsame as ->. by apply list_elem_of_In.
      - apply elem_of_app. right. by apply list_elem_of_singleton. }
    assert (∀ z, z ∈ acc → z ∈ Set_add SameValueZero acc x) as Hacc.
    { intros z Hz. unfold Set_add. destruct (existsb _ acc); [done|].
      apply elem_of_app. by left. }
    destruct H as [H|H]; [left; by apply Hacc|].
    apply elem_of_cons in H as [-> | H]; [by left|by right].
Qed.

(** C8, as the code has it, for a run with a home directory and a default
    list of strings that is not empty. A custom file whose content is not a
    JSON array, be it a JSON document of another kind or a text that cannot
    be parsed, is set aside with one warning: the pool is the default list,
    each word once, and the load does not fail. A custom file that holds a
    JSON array is taken as it is, whatever its members: there is no warning,
    and the default words and every member of the array are in the pool. *)
Theorem loadWordList_custom_not_array (env : Env) (homeDir : str)
    (status : Z) (ws : list str) :
  env_HOME env = Some homeDir → truthy homeDir = true →
  env_ensureDir env = None →
  env_words env = Response status (JArr (JStr <$> ws)) → ok status = true →
  ws ≠ [] →
  (∀ v, env_custom env = FileText (inr v) → isArray v = false →
     loadWordList env =
     ([Stderr (yellow (colors (env_color env)) NOT_ARRAY_WARNING)],
      inr (JStr <$> first_occurrences ws))) ∧
  (∀ e, env_custom env = FileText (inl e) → kind e ≠ KNotFound →
     loadWordList env =
     ([Stderr (yellow (colors (env_color env))
                 (lit "Warning: Could not read or parse custom_words.json. "
                  ++ message e))],
      inr (JStr <$> first_occurrences ws))) ∧
  (∀ items, env_custom env = FileText (inr (JArr items)) →
     ∃ pool,
       loadWordList env = ([], inr pool) ∧
       (∀ w, w ∈ ws → JStr w ∈ pool) ∧
       (∀ x, x ∈ items → x ∈ pool)).
Proof.
  intros Hhome Htruthy Hdir Hwords Hok Hne.
  pose proof (merge_JStr ws []) as Hm. simpl in Hm.
  rewrite merge_words, app_nil_r in Hm.
  split; [|split].
  - intros v Hcustom Harr.
    unfold loadWordList, load_default, load_custom.
    rewrite Hhome, Htruthy, Hdir, Hcustom, Harr, Hwords, Hok. simpl.
    rewrite Hm. by destruct ws.
  - intros e Hcustom Hkind.
    unfold loadWordList, load_default, load_custom.
    rewrite Hhome, Htruthy, Hdir, Hcustom, Hwords, Hok.
    destruct (kind e) eqn:Hk; [..|done|]; run_M; simpl; rewrite Hk; simpl;
      rewrite Hm; by destruct ws.
  - intros items Hcustom.
    unfold loadWordList, load_default, load_custom.
    rewrite Hhome, Htruthy, Hdir, Hcustom, Hwords, Hok. simpl.
    unfold merge, new_Set.
    set (pool := foldl (Set_add SameValueZero) [] ((JStr <$> ws) ++ items)).
    assert (∀ x, x ∈ (JStr <$> ws) ++ items → x ∈ pool) as Hin.
    { intros x Hx. apply foldl_Set_add_keeps. by right. }
    destruct (Z.eqb_spec (len pool) 0) as [H0|_].
    { destruct ws as [|w ws']; [done|].
      assert (JStr w ∈ pool) as Hw by (apply Hin; left).
      destruct pool; [by apply elem_of_nil in Hw|]. unfold len in H0. simpl in H0. lia. }
    exists pool. split; [done|]. split.
    + intros w Hw. apply Hin, elem_of_app. left. by apply list_elem_of_fmap_2.
    + intros x Hx. apply Hin, elem_of_app. by right.
Qed.

(** C8 for the scenario of the document [{"not": "an array"}]. *)
Lemma loadWordList_custom_not_array_witness :
  loadWordList (sample_env not_an_array) =
  ([Stderr (yellow (colors false) NOT_ARRAY_WARNING)],
   inr (JStr <$> first_occurrences [lit "alpha"])).
Proof.
  destruct (loadWordList_custom_not_array (sample_env not_an_array)
              (lit "/home/user") 200 [lit "alpha"]) as [Hdoc _];
    [reflexivity || discriminate ..|].
  by apply (Hdoc not_an_array).
Defined.

(** C8 as stated fails for an array whose members are not strings: the
    document [[1, 2]] is taken without a warning and its numbers join the
    pool. *)
Lemma loadWordList_custom_counterexample :
  ¬ (∀ v, is_string_array v = false →
       ∃ warning,
         loadWordList (sample_env v) =
         ([Stderr warning], inr [JStr (lit "alpha")])).
Proof.
  intros H. destruct (H (JArr [JNum 1; JNum 2])) as [warning Hw]; [done|].
  vm_compute in Hw. discriminate.
Qed.

(** With no default list either, the pool is empty and the load fails. *)
Lemma loadWordList_custom_not_array_no_default (env : Env) (homeDir : str)
    (v : json) (status : Z) (body : json) :
  env_HOME env = Some homeDir → truthy homeDir = true →
  env_ensureDir env = None →
  env_custom env = FileText (inr v) → isArray v = false →
  env_words env = Response status body → ok status = false →
  loadWordList env =
  ([Stderr (gray (colors (env_color env)) (lit "Could not fetch default word list."));
    Stderr (yellow (colors (env_color env)) NOT_ARRAY_WARNING)],
   inl (mkExn KError EMPTY_LIST_MESSAGE)).
Proof.
  intros Hhome Htruthy Hdir Hcustom Harr Hwords Hok.
  unfold loadWordList, load_default, load_custom.
  by rewrite Hhome, Htruthy, Hdir, Hcustom, Harr, Hwords, Hok.
Qed.

(** ** fetchWordData and main *)

Lemma contains_middle (a w b : str) : contains w (a ++ w ++ b).
Proof. by exists a, b. Qed.

Lemma contains_end (a w : str) : contains w (a ++ w).
Proof. exists a, []. by rewrite app_nil_r. Qed.

(** When the entry cannot be fetched, [main] prints the message of the error
    after what [loadWordList] printed, and nothing else. *)
Lemma main_fetch_fails (env : Env) (out : list Event) (wordList : list json)
    (e : Exn) :
  loadWordList env = (out, inr wordList) →
  fetchWordData (env_fetch env)
    (ToString_opt (getWordOfTheDay (env_tz env) (env_now env) wordList)) =
    ([], inl e) →
  main env =
  (out ++ [Stderr (bold (colors (env_color env))
                     (yellow (colors (env_color env))
                        ([NEWLINE] ++ lit "Error: " ++ message e ++ [NEWLINE])))],
   inr tt).
Proof.
  intros Hload Hfetch. unfold main. rewrite Hload.
  unfold mbind, M_bind, bind. rewrite Hfetch. unfold try_catch. cbn.
  by rewrite app_nil_r.
Qed.

(** What [fetchWordData] does with a response. *)
Lemma fetchWordData_response (fetch : str → FetchResult (list WordEntry))
    (word : str) (status : Z) (decoded : Exn + list WordEntry) :
  fetch (API_URL word) = response_of status decoded →
  fetchWordData fetch word =
  ([], if ok status then decoded
       else inl (mkExn KError
                   (if status =? 404 then NOT_FOUND_MESSAGE word
                    else API_FAILED_MESSAGE status))).
Proof.
  intros Hf. unfold fetchWordData. rewrite Hf.
  destruct decoded as [e|body]; simpl;
    destruct (ok status); simpl; try done; by destruct (status =? 404).
Qed.

(** C7, as the code has it: given the response to the lookup,
    [fetchWordData] throws when the response is not ok, and on an ok
    response only when its body cannot be decoded, with the exception of the
    decoding. On a 404 the message holds the word, on another bad status it
    holds the number of the status. When [fetchWordData] throws, [main]
    prints the message on the error stream and nothing on the output: the
    entry is not rendered. *)
Theorem fetchWordData_failure (env : Env) (word : str) (status : Z)
    (decoded : Exn + list WordEntry) :
  env_fetch env (API_URL word) = response_of status decoded →
  ((∃ e, outcome (fetchWordData (env_fetch env) word) = inl e) ↔
   ok status = false ∨ ∃ e, decoded = inl e) ∧
  (status = 404 →
   ∃ e, fetchWordData (env_fetch env) word = ([], inl e) ∧
        message e = NOT_FOUND_MESSAGE word ∧ contains word (message e)) ∧
  (ok status = false → status ≠ 404 →
   ∃ e, fetchWordData (env_fetch env) word = ([], inl e) ∧
        message e = API_FAILED_MESSAGE status ∧
        contains (Number_toString status) (message e)) ∧
  (ok status = true → ∀ e, decoded = inl e →
   fetchWordData (env_fetch env) word = ([], inl e)) ∧
  (∀ e, outcome (fetchWordData (env_fetch env) word) = inl e →
   ∀ out wordList,
     loadWordList env = (out, inr wordList) →
     ToString_opt (getWordOfTheDay (env_tz env) (env_now env) wordList) = word →
     main env =
     (out ++ [Stderr (bold (colors (env_color env))
                        (yellow (colors (env_color env))
                           ([NEWLINE] ++ lit "Error: " ++ message e
                            ++ [NEWLINE])))],
      inr tt) ∧
     Forall (λ ev, is_stdout ev = false) (trace (main env))).
Proof.
  intros Hf. pose proof (fetchWordData_response _ _ _ _ Hf) as Hfetch.
  split; [|split; [|split; [|split]]].
  - rewrite Hfetch. simpl. destruct (ok status).
    + split.
      * intros [e He]. right. by exists e.
      * intros [?|[e He]]; [done|]. by exists e.
    + split; [by left|]. intros _. by eexists.
  - intros ->. rewrite Hfetch. simpl.
    eexists. split; [done|]. split; [done|]. simpl.
    unfold NOT_FOUND_MESSAGE. rewrite (app_assoc _ [QUOTE]).
    apply contains_middle.
  - intros Hok H404. rewrite Hfetch, Hok.
    destruct (Z.eqb_spec status 404) as [?|_]; [done|].
    eexists. split; [done|]. split; [done|]. apply contains_end.
  - intros Hok e ->. by rewrite Hfetch, Hok.
  - intros e He out wordList Hload Hword. subst word.
    assert (fetchWordData (env_fetch env)
              (ToString_opt (getWordOfTheDay (env_tz env) (env_now env) wordList)) =
            ([], inl e)) as Hthrows.
    { rewrite Hfetch in He |- *. simpl in He. by rewrite He. }
    rewrite (main_fetch_fails env out wordList e Hload Hthrows).
    split; [done|]. unfold trace. cbn [fst]. apply Forall_app. split.
    + pose proof (loadWordList_stderr env) as Hl. by rewrite Hload in Hl.
    + by repeat constructor.
Qed.

(** C7 for the scenario of a 404 on the word [zzzqx]. *)
Lemma fetchWordData_failure_witness :
  ∃ e, fetchWordData (λ _, Response 404 []) (lit "zzzqx") = ([], inl e) ∧
       message e = NOT_FOUND_MESSAGE (lit "zzzqx") ∧
       contains (lit "zzzqx") (message e).
Proof.
  destruct (fetchWordData_failure (sample_env (JArr [])) (lit "zzzqx") 404
              (inr [])) as (_ & H404 & _); [reflexivity|].
  by apply H404.
Defined.

(** C7 as stated fails for an ok response whose body is not JSON: the
    status is 200 and [fetchWordData] throws what [response.json()]
    throws. *)
Lemma fetchWordData_failure_counterexample :
  ¬ (∀ (fetch : str → FetchResult (list WordEntry)) (word : str) (status : Z)
       (decoded : Exn + list WordEntry),
       fetch (API_URL word) = response_of status decoded →
       ((∃ e, outcome (fetchWordData fetch word) = inl e) ↔ ok status = false)).
Proof.
  intros H.
  destruct (H (λ _, BadBody 200 (mkExn KOther (lit "Unexpected token")))
              (lit "zzzqx") 200
              (inl (mkExn KOther (lit "Unexpected token"))) eq_refl)
    as [Hthrows _].
  assert (ok 200 = false) as Hok; [|done].
  apply Hthrows. by eexists.
Qed.

(** ** Dates and getWordOfTheDay *)

Lemma DayFromYear_step (y : Z) :
  365 ≤ DayFromYear (y + 1) - DayFromYear y ≤ 366.
Proof. unfold DayFromYear. Z.div_mod_to_equations. lia. Qed.

Lemma DayFromYear_mono (y1 y2 : Z) :
  y1 ≤ y2 → DayFromYear y1 ≤ DayFromYear y2.
Proof. intros H. unfold DayFromYear. Z.div_mod_to_equations. lia. Qed.

Lemma year_up_spec (fuel : nat) (d y : Z) :
  DayFromYear y ≤ d → d - DayFromYear y < 365 * Z.of_nat fuel →
  DayFromYear (year_up fuel d y) ≤ d < DayFromYear (year_up fuel d y + 1).
Proof.
  revert y. induction fuel as [|fuel IH]; intros y Hlo Hfuel; [lia|].
  simpl. destruct (Z.leb_spec (DayFromYear (y + 1)) d) as [Hle|Hgt]; [|lia].
  apply IH; [done|]. pose proof (DayFromYear_step y). lia.
Qed.

(** [YearFromTime] finds the year of a time value. *)
Lemma YearFromTime_spec (t : Z) :
  DayFromYear (YearFromTime t) ≤ Day t < DayFromYear (YearFromTime t + 1).
Proof.
  unfold YearFromTime. set (d := Day t).
  set (y0 := 1970 + (if d <? 0 then d / 365 else d / 366)).
  assert (DayFromYear y0 ≤ d) as Hlo.
  { unfold y0, DayFromYear. destruct (Z.ltb_spec d 0);
      Z.div_mod_to_equations; lia. }
  apply year_up_spec; [done|].
  rewrite Z2Nat.id by (Z.div_mod_to_equations; lia).
  Z.div_mod_to_equations. lia.
Qed.

Lemma YearFromTime_unique (t y : Z) :
  DayFromYear y ≤ Day t < DayFromYear (y + 1) → YearFromTime t = y.
Proof.
  intros Hy. pose proof (YearFromTime_spec t) as HY.
  destruct (Z.lt_trichotomy (YearFromTime t) y) as [Hlt|[Heq|Hgt]]; [|done|].
  - pose proof (DayFromYear_mono (YearFromTime t + 1) y). lia.
  - pose proof (DayFromYear_mono (y + 1) (YearFromTime t)). lia.
Qed.

Lemma DayWithinYear_bounds (t : Z) : 0 ≤ DayWithinYear t ≤ 365.
Proof.
  unfold DayWithinYear. pose proof (YearFromTime_spec t).
  pose proof (DayFromYear_step (YearFromTime t)). lia.
Qed.

Lemma Day_TimeFromYear (y ms : Z) :
  0 ≤ ms < msPerDay → Day (TimeFromYear y + ms) = DayFromYear y.
Proof.
  intros Hms. unfold Day, TimeFromYear, msPerDay in *.
  Z.div_mod_to_equations. lia.
Qed.

(** In a zone of constant offset the computed day of the year is the day of
    the local date counted from the start of the year the anchor is in. *)
Lemma dayOfYear_fixed_zone (offset now : Z) :
  dayOfYear (fixed_zone offset) now =
  Day (now + offset) + 1 -
  DayFromYear
    (let year := YearFromTime (now + offset) in
     if (0 <=? year) && (year <=? 99) then 1900 + year else year).
Proof.
  unfold dayOfYear, Date_of_January, getFullYear, UTC, LocalTime. simpl.
  set (D := DayFromYear _). unfold Day.
  change (1000 * 60 * 60 * 24) with msPerDay. unfold msPerDay.
  Z.div_mod_to_equations. lia.
Qed.

(** So it is the ordinal of the local date, January 1 being day 1, for the
    years that [Date] does not read as two-digit years. *)
Lemma dayOfYear_fixed_zone_ordinal (offset now : Z) :
  ¬ (0 ≤ YearFromTime (now + offset) ≤ 99) →
  dayOfYear (fixed_zone offset) now = DayWithinYear (now + offset) + 1.
Proof.
  intros Hy. rewrite dayOfYear_fixed_zone. unfold DayWithinYear. cbv zeta.
  destruct (Z.leb_spec 0 (YearFromTime (now + offset)));
    destruct (Z.leb_spec (YearFromTime (now + offset)) 99); simpl; lia.
Qed.

(** In such a zone the word depends on the local date only. *)
Lemma getWordOfTheDay_fixed_zone_same_day {A} (offset now1 now2 : Z)
    (wordList : list A) :
  Day (now1 + offset) = Day (now2 + offset) →
  getWordOfTheDay (fixed_zone offset) now1 wordList =
  getWordOfTheDay (fixed_zone offset) now2 wordList.
Proof.
  intros Hday. unfold getWordOfTheDay. rewrite !dayOfYear_fixed_zone.
  unfold YearFromTime. by rewrite Hday.
Qed.

(** In such a zone the word is the element at the ordinal of the local date
    modulo the size of the list. *)
Lemma getWordOfTheDay_fixed_zone {A} (offset now : Z) (wordList : list A) :
  ¬ (0 ≤ YearFromTime (now + offset) ≤ 99) → wordList ≠ [] →
  getWordOfTheDay (fixed_zone offset) now wordList =
  wordList !! Z.to_nat ((DayWithinYear (now + offset) + 1) mod len wordList) ∧
  is_Some (getWordOfTheDay (fixed_zone offset) now wordList).
Proof.
  intros Hy Hne. unfold getWordOfTheDay.
  rewrite dayOfYear_fixed_zone_ordinal by done.
  pose proof (DayWithinYear_bounds (now + offset)) as Hb.
  assert (0 < len wordList) as Hlen.
  { unfold len. destruct wordList; [done|simpl; lia]. }
  unfold js_rem. destruct (Z.eqb_spec (len wordList) 0) as [?|_]; [lia|].
  rewrite Z.rem_mod_nonneg by lia. simpl.
  pose proof (Z.mod_pos_bound (DayWithinYear (now + offset) + 1) (len wordList) Hlen).
  destruct (Z.ltb_spec ((DayWithinYear (now + offset) + 1) mod len wordList) 0);
    [lia|].
  split; [done|]. apply lookup_lt_is_Some. unfold len in *. lia.
Qed.

(** On January 1 of the year [y] the computed day of the year is 1. *)
Lemma dayOfYear_january_1 (offset y ms : Z) :
  ¬ (0 ≤ y ≤ 99) → 0 ≤ ms < msPerDay →
  dayOfYear (fixed_zone offset) (TimeFromYear y + ms - offset) = 1.
Proof.
  intros Hy Hms.
  assert (YearFromTime (TimeFromYear y + ms - offset + offset) = y) as HY.
  { apply YearFromTime_unique.
    replace (TimeFromYear y + ms - offset + offset) with (TimeFromYear y + ms)
      by lia.
    rewrite Day_TimeFromYear by done. pose proof (DayFromYear_step y). lia. }
  rewrite dayOfYear_fixed_zone_ordinal by (rewrite HY; lia).
  unfold DayWithinYear. rewrite HY.
  replace (TimeFromYear y + ms - offset + offset) with (TimeFromYear y + ms)
    by lia.
  rewrite Day_TimeFromYear by done. lia.
Qed.

(** The scenario of the third day of the year, in UTC. *)
Lemma getWordOfTheDay_day_3 :
  DayWithinYear (in_2024 2 12 0) + 1 = 3 ∧
  getWordOfTheDay (fixed_zone 0) (in_2024 2 12 0) alpha_beta = Some (lit "beta").
Proof. split; by vm_compute. Qed.

(** C3 in the first hour of a summer day: on July 1, 2024 at 00:30 Central
    European Summer Time the local date is day 183 of the year and
    [183 mod 2 = 1] selects [beta], but the code counts 182 whole days since
    the anchor and returns [alpha]. *)
Theorem getWordOfTheDay_first_hour :
  DayWithinYear (LocalTime CET july1_0030) + 1 = 183 ∧
  alpha_beta !! Z.to_nat (183 mod len alpha_beta) = Some (lit "beta") ∧
  dayOfYear CET july1_0030 = 182 ∧
  getWordOfTheDay CET july1_0030 alpha_beta = Some (lit "alpha").
Proof. repeat split; by vm_compute. Qed.

(** C4 on one local date: 00:30 and 12:00 of July 1, 2024, Central European
    Summer Time, are on the same day and get different words. *)
Theorem getWordOfTheDay_same_day_differs :
  Day (LocalTime CET july1_0030) = Day (LocalTime CET july1_1200) ∧
  getWordOfTheDay CET july1_0030 alpha_beta = Some (lit "alpha") ∧
  getWordOfTheDay CET july1_1200 alpha_beta = Some (lit "beta").
Proof. repeat split; by vm_compute. Qed.

(** * Further properties *)

(** ** loadWordList: the two sources *)

(** X1: when both sources hold arrays of strings nothing is logged, and the
    load gives what the merge of the two word lists gives: the pool, or the
    error of the empty list. *)
Theorem loadWordList_both_lists (env : Env) (homeDir : str) (status : Z)
    (d c : list str) :
  env_words env = Response status (JArr (JStr <$> d)) → ok status = true →
  env_HOME env = Some homeDir → truthy homeDir = true →
  env_ensureDir env = None →
  env_custom env = FileText (inr (JArr (JStr <$> c))) →
  loadWordList env =
  ([], match merge str_same d c with
       | inl e => inl e
       | inr pool => inr (JStr <$> pool)
       end).
Proof.
  intros Hwords Hok Hhome Htruthy Hdir Hcustom.
  unfold loadWordList, load_default, load_custom.
  rewrite Hwords, Hok, Hhome, Htruthy, Hdir, Hcustom. simpl.
  by rewrite merge_JStr.
Qed.

(** X1 for the default list [alpha, beta] and the custom list
    [beta, gamma]. *)
Lemma loadWordList_both_lists_witness :
  loadWordList
    (lists_env 200 (JArr (JStr <$> alpha_beta))
       (JArr (JStr <$> [lit "beta"; lit "gamma"]))) =
  ([], match merge str_same alpha_beta [lit "beta"; lit "gamma"] with
       | inl e => inl e
       | inr pool => inr (JStr <$> pool)
       end).
Proof.
  apply (loadWordList_both_lists
           (lists_env 200 (JArr (JStr <$> alpha_beta))
              (JArr (JStr <$> [lit "beta"; lit "gamma"])))
           (lit "/home/user") 200 alpha_beta [lit "beta"; lit "gamma"]);
    reflexivity.
Defined.

(** X2: a default list that cannot be had, because the fetch is rejected,
    the response is not ok or its body is not JSON, costs one grey line on
    the error stream and gives no word. With a custom file that holds an
    array of strings the load goes on with the custom words alone: it
    returns them, each once, when there are any, and fails with the error of
    the empty list when there are none. *)
Theorem loadWordList_default_unavailable (env : Env) (homeDir line : str)
    (c : list str) :
  default_failure (env_words env) = Some line →
  env_HOME env = Some homeDir → truthy homeDir = true →
  env_ensureDir env = None →
  env_custom env = FileText (inr (JArr (JStr <$> c))) →
  loadWordList env =
  ([Stderr (gray (colors (env_color env)) line)],
   match c with
   | [] => inl (mkExn KError EMPTY_LIST_MESSAGE)
   | _ :: _ => inr (JStr <$> first_occurrences c)
   end).
Proof.
  intros Hfail Hhome Htruthy Hdir Hcustom.
  unfold loadWordList, load_default, load_custom.
  rewrite Hhome, Htruthy, Hdir, Hcustom.
  pose proof (merge_JStr [] c) as Hm. simpl in Hm.
  destruct (env_words env) as [e|status body|status e]; simpl in Hfail.
  - injection Hfail as <-. simpl. rewrite Hm, merge_words. by destruct c.
  - destruct (ok status); [done|]. injection Hfail as <-. simpl.
    rewrite Hm, merge_words. by destruct c.
  - destruct (ok status); injection Hfail as <-; simpl;
      rewrite Hm, merge_words; by destruct c.
Qed.

(** X2 for a default list that answers 500. *)
Lemma loadWordList_default_unavailable_witness :
  loadWordList (lists_env 500 JNull (JArr (JStr <$> alpha_beta))) =
  ([Stderr (gray (colors false) (lit "Could not fetch default word list."))],
   inr (JStr <$> first_occurrences alpha_beta)).
Proof.
  apply (loadWordList_default_unavailable
           (lists_env 500 JNull (JArr (JStr <$> alpha_beta)))
           (lit "/home/user") (lit "Could not fetch default word list.")
           alpha_beta);
    reflexivity.
Defined.

(** X3: when the custom file cannot be read or parsed the default list is
    used alone; a file that is not there is passed over in silence, any other
    failure costs one warning that ends with the message of the error. *)
Theorem loadWordList_custom_unreadable (env : Env) (homeDir : str) (status : Z)
    (ws : list str) (e : Exn) :
  env_words env = Response status (JArr (JStr <$> ws)) → ok status = true →
  ws ≠ [] →
  env_HOME env = Some homeDir → truthy homeDir = true →
  env_ensureDir env = None →
  read_error (env_custom env) = Some e →
  loadWordList env =
  (match kind e with
   | KNotFound => []
   | _ =>
       [Stderr (yellow (colors (env_color env))
                  (lit "Warning: Could not read or parse custom_words.json. "
                   ++ message e))]
   end,
   inr (JStr <$> first_occurrences ws)).
Proof.
  intros Hwords Hok Hne Hhome Htruthy Hdir Herr.
  unfold loadWordList, load_default, load_custom.
  rewrite Hwords, Hok, Hhome, Htruthy, Hdir.
  pose proof (merge_JStr ws []) as Hm. simpl in Hm.
  assert (∀ r : ReadResult, read_error r = Some e →
          try_catch
            (match r with
             | ReadRejects e0 => throw e0
             | FileText (inl e0) => throw e0
             | FileText (inr customWords) =>
                 if negb (isArray customWords) then
                   console_error (yellow (colors (env_color env)) NOT_ARRAY_WARNING);;
                   mret (JArr [])
                 else mret customWords
             end : M json) =
          try_catch (throw e)) as Hr.
  { intros [e0|[e0|v]] He0; simpl in He0; by simplify_eq. }
  rewrite (Hr _ Herr). clear Hr.
  destruct (kind e) eqn:Hk; run_M; simpl; rewrite Hk; simpl;
    rewrite Hm, merge_words, app_nil_r; by destruct ws.
Qed.

(** X3 for a custom file that is not there. *)
Lemma loadWordList_custom_unreadable_witness :
  loadWordList
    (with_custom (sample_env JNull) None
       (ReadRejects (mkExn KNotFound (lit "No such file or directory")))) =
  ([], inr (JStr <$> first_occurrences [lit "alpha"])).
Proof.
  apply (loadWordList_custom_unreadable
           (with_custom (sample_env JNull) None
              (ReadRejects (mkExn KNotFound (lit "No such file or directory"))))
           (lit "/home/user") 200 [lit "alpha"]
           (mkExn KNotFound (lit "No such file or directory")));
    (reflexivity || discriminate).
Defined.

(** X4: without a home directory, [HOME] unset or empty, the configuration
    directory and the custom file play no part: whatever they would give, the
    load is the same. *)
Theorem loadWordList_no_home (env : Env) (ensureDir : option Exn)
    (custom : ReadResult) :
  env_HOME env = None ∨ env_HOME env = Some [] →
  loadWordList (with_custom env ensureDir custom) = loadWordList env.
Proof.
  intros Hhome. unfold loadWordList, load_custom, with_custom. simpl.
  by destruct Hhome as [-> | ->].
Qed.

(** X4 for a run without [HOME] and a configuration directory that cannot be
    made. *)
Lemma loadWordList_no_home_witness :
  loadWordList
    (with_custom (render_env 80)
       (Some (mkExn KOther (lit "Permission denied"))) (FileText (inr JNull))) =
  loadWordList (render_env 80).
Proof. apply loadWordList_no_home. by left. Defined.

(** X5: with a home directory, a configuration directory that cannot be made
    is fatal: the exception of [ensureDir] leaves [loadWordList] after what
    the default list logged, whatever the default list holds, and the custom
    file is not read. *)
Theorem loadWordList_ensureDir_fatal (env : Env) (homeDir : str) (e : Exn)
    (custom : ReadResult) :
  env_HOME env = Some homeDir → truthy homeDir = true →
  env_ensureDir env = Some e →
  outcome (loadWordList env) = inl e ∧
  trace (loadWordList env) =
    trace (load_default (colors (env_color env)) (env_words env)) ∧
  loadWordList (with_custom env (Some e) custom) = loadWordList env.
Proof.
  intros Hhome Htruthy Hdir.
  unfold loadWordList, load_custom, with_custom. simpl.
  rewrite Hhome, Htruthy, Hdir.
  destruct (load_default _ _) as [out [e0|defaultWords]] eqn:Hd.
  - unfold load_default in Hd.
    destruct (env_words env) as [e1|status body|status e1];
      [|destruct (ok status)..]; run_M; simpl in Hd; by simplify_eq.
  - run_M. simpl. by rewrite app_nil_r.
Qed.

(** X5 for a home directory that cannot be written to. *)
Lemma loadWordList_ensureDir_fatal_witness :
  outcome (loadWordList
             (with_custom (sample_env JNull)
                (Some (mkExn KOther (lit "Permission denied")))
                (FileText (inr JNull)))) =
    inl (mkExn KOther (lit "Permission denied")).
Proof.
  apply (loadWordList_ensureDir_fatal
           (with_custom (sample_env JNull)
              (Some (mkExn KOther (lit "Permission denied")))
              (FileText (inr JNull)))
           (lit "/home/user")
           (mkExn KOther (lit "Permission denied")) (FileText (inr JNull)));
    reflexivity.
Defined.

(** X6: a pool that [loadWordList] returns is never empty, and the load logs
    two lines at most, one for each source. *)
Theorem loadWordList_pool_nonempty (env : Env) :
  (∀ pool, outcome (loadWordList env) = inr pool → pool ≠ []) ∧
  (length (trace (loadWordList env)) ≤ 2)%nat.
Proof.
  unfold loadWordList.
  assert (∀ r, length (trace (load_default (colors (env_color env)) r)) ≤ 1)%nat
    as Hd.
  { intros [e|status body|status e]; unfold load_default;
      [|destruct (ok status)..]; run_M; simpl; lia. }
  assert (∀ h d r, length (trace (load_custom (colors (env_color env)) h d r)) ≤ 1)%nat
    as Hc.
  { intros [h|] d r; unfold load_custom; [|run_M; simpl; lia].
    destruct (truthy h); [|run_M; simpl; lia].
    destruct d as [e|]; [run_M; simpl; lia|].
    destruct r as [e|[e|v]]; run_M; simpl.
    - destruct (kind e); simpl; lia.
    - destruct (kind e); simpl; lia.
    - destruct (isArray v); simpl; lia. }
  specialize (Hd (env_words env)).
  specialize (Hc (env_HOME env) (env_ensureDir env) (env_custom env)).
  destruct (load_default _ _) as [o1 [e1|defaultWords]];
    [run_M; simpl in *; split; [done|lia]|].
  destruct (load_custom _ _ _ _) as [o2 [e2|customWords]];
    [run_M; simpl in *; rewrite length_app; split; [done|lia]|].
  unfold merge. run_M. simpl in *.
  destruct (spread (lit "defaultWords") defaultWords) as [e3|d]; simpl;
    [rewrite length_app, app_nil_r; split; [done|lia]|].
  destruct (spread (lit "customWords") customWords) as [e4|cu]; simpl;
    [rewrite length_app, !app_nil_r; split; [done|lia]|].
  destruct (Z.eqb_spec (len (new_Set SameValueZero (d ++ cu))) 0) as [H0|H0];
    simpl; rewrite length_app, !app_nil_r; (split; [|lia]).
  - done.
  - intros pool [= <-]. intros Hnil. rewrite Hnil in H0. by apply H0.
Qed.

(** X7: only the custom list is guarded by [Array.isArray]. A default list
    that is a JSON document other than an array or a string cannot be spread:
    once the custom source is through, [loadWordList] throws a TypeError,
    whatever custom words there are. *)
Theorem loadWordList_default_not_iterable (env : Env) (status : Z) (body : json)
    (customWords : json) :
  env_words env = Response status body → ok status = true →
  isArray body = false → (∀ s, body ≠ JStr s) →
  outcome (load_custom (colors (env_color env)) (env_HOME env)
             (env_ensureDir env) (env_custom env)) = inr customWords →
  ∃ e, outcome (loadWordList env) = inl e ∧ kind e = KTypeError.
Proof.
  intros Hwords Hok Harr Hstr Hcustom.
  unfold loadWordList, load_default. rewrite Hwords, Hok.
  destruct (load_custom _ _ _ _) as [o2 [e2|cw]]; simpl in Hcustom; [done|].
  destruct body; try done; [..|by destruct (Hstr s)|];
    run_M; simpl; by eexists.
Qed.

(** X7 for the default document [{"not": "an array"}] and an empty custom
    list. *)
Lemma loadWordList_default_not_iterable_witness :
  ∃ e,
    outcome (loadWordList (lists_env 200 not_an_array (JArr []))) = inl e ∧
    kind e = KTypeError.
Proof.
  apply (loadWordList_default_not_iterable
           (lists_env 200 not_an_array (JArr [])) 200 not_an_array (JArr []));
    (reflexivity || discriminate).
Defined.

(** ** getWordOfTheDay: the index and the calendar *)

(** X8: from a list of one word that word is selected, in every zone and at
    every time. *)
Theorem getWordOfTheDay_singleton {A} (tz : TimeZone) (now : Z) (w : A) :
  getWordOfTheDay tz now [w] = Some w.
Proof.
  unfold getWordOfTheDay, js_rem. change (len [w]) with 1.
  by rewrite Z.rem_1_r.
Qed.

(** The index of a day count that is not negative is within the list. *)
Lemma element_of_day {A} (d : Z) (wordList : list A) :
  0 ≤ d → wordList ≠ [] →
  (Z.to_nat (d mod len wordList) < length wordList)%nat ∧
  element wordList (js_rem d (len wordList)) =
    wordList !! Z.to_nat (d mod len wordList).
Proof.
  intros Hd Hne. unfold js_rem.
  assert (0 < len wordList) as Hlen.
  { unfold len. destruct wordList; [done|simpl; lia]. }
  destruct (Z.eqb_spec (len wordList) 0) as [?|_]; [lia|].
  rewrite Z.rem_mod_nonneg by lia. simpl.
  pose proof (Z.mod_pos_bound d (len wordList) Hlen) as Hb.
  destruct (Z.ltb_spec (d mod len wordList) 0); [lia|].
  split; [|done]. unfold len in *. lia.
Qed.

(** X9: when the day count is not negative the selection is undefined for
    the empty list only; for any other list the index [dayOfYear mod length]
    is within the list and its element is returned. *)
Theorem getWordOfTheDay_defined {A} (tz : TimeZone) (now : Z)
    (wordList : list A) :
  0 ≤ dayOfYear tz now →
  (getWordOfTheDay tz now wordList = None ↔ wordList = []) ∧
  (wordList ≠ [] →
   (Z.to_nat (dayOfYear tz now mod len wordList) < length wordList)%nat ∧
   getWordOfTheDay tz now wordList =
     wordList !! Z.to_nat (dayOfYear tz now mod len wordList)).
Proof.
  intros Hd. unfold getWordOfTheDay.
  destruct wordList as [|w l]; [by split|].
  destruct (element_of_day (dayOfYear tz now) (w :: l) Hd ltac:(done))
    as [Hlt Hel].
  split; [|done]. split; [|done].
  rewrite Hel. intros Hnone. apply lookup_lt_is_Some in Hlt.
  rewrite Hnone in Hlt. by destruct Hlt.
Qed.

(** X9 in the first hour of July 1, 2024, Central European Summer Time. *)
Lemma getWordOfTheDay_defined_witness :
  (getWordOfTheDay CET july1_0030 alpha_beta = None ↔ alpha_beta = []) ∧
  (alpha_beta ≠ [] →
   (Z.to_nat (dayOfYear CET july1_0030 mod len alpha_beta) < length alpha_beta)%nat ∧
   getWordOfTheDay CET july1_0030 alpha_beta =
     alpha_beta !! Z.to_nat (dayOfYear CET july1_0030 mod len alpha_beta)).
Proof. apply getWordOfTheDay_defined. by vm_compute. Defined.

(** X10: how far the day count is from the calendar. With [drift] the offset
    of the zone at the anchor, local midnight of December 31, minus its
    offset now, the count is the ordinal of the local date plus the whole
    days in (time of day + drift): it is the ordinal as long as the time of
    day plus the drift stays within the day, and within one day of it as
    long as the two offsets differ by less than a day. *)
Theorem dayOfYear_drift (tz : TimeZone) (now : Z) :
  ¬ (0 ≤ getFullYear tz now ≤ 99) →
  let local := LocalTime tz now in
  let anchor := msPerDay * (DayFromYear (getFullYear tz now) - 1) in
  let drift := LocalTZA_local tz anchor - LocalTZA_utc tz now in
  let ordinal := DayWithinYear local + 1 in
  dayOfYear tz now = ordinal + (local mod msPerDay + drift) / msPerDay ∧
  (0 ≤ local mod msPerDay + drift < msPerDay → dayOfYear tz now = ordinal) ∧
  (- msPerDay < drift < msPerDay →
   ordinal - 1 ≤ dayOfYear tz now ≤ ordinal + 1).
Proof.
  intros Hy local anchor drift ordinal.
  assert (dayOfYear tz now = ordinal + (local mod msPerDay + drift) / msPerDay)
    as Heq.
  { unfold dayOfYear, Date_of_January, UTC.
    assert ((0 <=? getFullYear tz now) && (getFullYear tz now <=? 99) = false)
      as ->.
    { destruct (Z.leb_spec 0 (getFullYear tz now));
        destruct (Z.leb_spec (getFullYear tz now) 99); simpl; [lia|done..]. }
    replace (DayFromYear (getFullYear tz now) + 0 - 1)
      with (DayFromYear (getFullYear tz now) - 1) by lia.
    fold anchor. change (1000 * 60 * 60 * 24) with msPerDay.
    pose proof (Z.div_mod local msPerDay ltac:(done)) as Hdm.
    replace (now - (anchor - LocalTZA_local tz anchor))
      with (local mod msPerDay + drift +
            (local / msPerDay - DayFromYear (getFullYear tz now) + 1) * msPerDay)
      by (subst local anchor drift; unfold LocalTime, msPerDay in *; lia).
    rewrite Z.div_add by done.
    unfold ordinal, DayWithinYear, Day, getFullYear. fold local. lia. }
  split; [done|]. rewrite Heq. split.
  - intros Hin. rewrite Z.div_small by done. lia.
  - intros Hdrift.
    pose proof (Z.mod_pos_bound local msPerDay ltac:(done)) as Hr.
    assert (-1 ≤ (local mod msPerDay + drift) / msPerDay ≤ 1); [|lia].
    split.
    + apply Z.div_le_lower_bound; [done|]. unfold msPerDay in *. lia.
    + apply Z.lt_succ_r, Z.div_lt_upper_bound; [done|]. unfold msPerDay in *. lia.
Qed.

(** X10 in the first hour of July 1, 2024, Central European Summer Time: the
    drift is minus one hour and the count is one less than the ordinal. *)
Lemma dayOfYear_drift_witness :
  let local := LocalTime CET july1_0030 in
  let anchor := msPerDay * (DayFromYear (getFullYear CET july1_0030) - 1) in
  let drift := LocalTZA_local CET anchor - LocalTZA_utc CET july1_0030 in
  let ordinal := DayWithinYear local + 1 in
  dayOfYear CET july1_0030 = ordinal + (local mod msPerDay + drift) / msPerDay ∧
  (0 ≤ local mod msPerDay + drift < msPerDay →
   dayOfYear CET july1_0030 = ordinal) ∧
  (- msPerDay < drift < msPerDay →
   ordinal - 1 ≤ dayOfYear CET july1_0030 ≤ ordinal + 1).
Proof. apply dayOfYear_drift. vm_compute. intros [_ H]. by apply H. Defined.

(** X11: the count of a year stays between 1 and 366, so of a list of more
    than 366 words the first word and the words behind the 367th are never
    selected, and words appended to such a list, as custom words are, change
    nothing. *)
Theorem getWordOfTheDay_long_list {A} (offset now : Z)
    (wordList more : list A) :
  ¬ (0 ≤ YearFromTime (now + offset) ≤ 99) →
  366 < len wordList →
  1 ≤ dayOfYear (fixed_zone offset) now ≤ 366 ∧
  getWordOfTheDay (fixed_zone offset) now (wordList ++ more) =
    wordList !! Z.to_nat (dayOfYear (fixed_zone offset) now).
Proof.
  intros Hy Hlen.
  assert (1 ≤ dayOfYear (fixed_zone offset) now ≤ 366) as Hd.
  { rewrite dayOfYear_fixed_zone_ordinal by done.
    pose proof (DayWithinYear_bounds (now + offset)). lia. }
  split; [done|]. unfold getWordOfTheDay, js_rem.
  rewrite len_app. pose proof (len_nonneg more).
  destruct (Z.eqb_spec (len wordList + len more) 0) as [?|_]; [lia|].
  rewrite Z.rem_small by lia. simpl.
  destruct (Z.ltb_spec (dayOfYear (fixed_zone offset) now) 0); [lia|].
  apply lookup_app_l. unfold len in *. lia.
Qed.

(** X11 on January 3, 2024 in UTC, for a list of 400 words and one more. *)
Lemma getWordOfTheDay_long_list_witness :
  1 ≤ dayOfYear (fixed_zone 0) (in_2024 2 12 0) ≤ 366 ∧
  getWordOfTheDay (fixed_zone 0) (in_2024 2 12 0)
    (replicate 400 (lit "word") ++ [lit "custom"]) =
    replicate 400 (lit "word") !! Z.to_nat (dayOfYear (fixed_zone 0) (in_2024 2 12 0)).
Proof.
  apply (getWordOfTheDay_long_list 0 (in_2024 2 12 0)
           (replicate 400 (lit "word")) [lit "custom"]).
  - vm_compute. intros [_ H]. by apply H.
  - by vm_compute.
Defined.

(** X12: in a zone of constant offset a day later within the same year the
    count is one more, so the index moves to the next word, round the list;
    in a list of two or more distinct words the word changes. *)
Theorem getWordOfTheDay_next_day (offset now : Z) (wordList : list str) :
  ¬ (0 ≤ YearFromTime (now + offset) ≤ 99) →
  YearFromTime (now + msPerDay + offset) = YearFromTime (now + offset) →
  wordList ≠ [] →
  dayOfYear (fixed_zone offset) (now + msPerDay) =
    dayOfYear (fixed_zone offset) now + 1 ∧
  getWordOfTheDay (fixed_zone offset) (now + msPerDay) wordList =
    wordList !! Z.to_nat ((dayOfYear (fixed_zone offset) now + 1) mod len wordList) ∧
  (NoDup wordList → 2 ≤ len wordList →
   getWordOfTheDay (fixed_zone offset) (now + msPerDay) wordList ≠
   getWordOfTheDay (fixed_zone offset) now wordList).
Proof.
  intros Hy Hsame Hne.
  assert (dayOfYear (fixed_zone offset) (now + msPerDay) =
          dayOfYear (fixed_zone offset) now + 1) as Hnext.
  { rewrite !dayOfYear_fixed_zone. cbv zeta. rewrite Hsame.
    replace (now + msPerDay + offset) with (now + offset + 1 * msPerDay) by lia.
    unfold Day. rewrite Z.div_add by done. lia. }
  assert (0 ≤ dayOfYear (fixed_zone offset) now) as Hd.
  { rewrite dayOfYear_fixed_zone_ordinal by done.
    pose proof (DayWithinYear_bounds (now + offset)). lia. }
  split; [done|].
  unfold getWordOfTheDay.
  destruct (element_of_day (dayOfYear (fixed_zone offset) now) wordList Hd Hne)
    as [Hlt1 ->].
  destruct (element_of_day (dayOfYear (fixed_zone offset) (now + msPerDay))
              wordList ltac:(lia) Hne) as [Hlt2 ->].
  rewrite Hnext in *. split; [done|].
  intros Hnodup Hlen Heq.
  destruct (lookup_lt_is_Some_2 _ _ Hlt1) as [w Hw]. rewrite Hw in Heq.
  pose proof (NoDup_lookup _ _ _ _ Hnodup Heq Hw) as Hidx.
  apply Z2Nat.inj in Hidx; [|apply Z.mod_pos_bound; lia..].
  set (d := dayOfYear (fixed_zone offset) now) in *.
  set (n := len wordList) in *.
  assert ((d + 1 - d) mod n = 0) as H0.
  { rewrite Zminus_mod, Hidx, Z.sub_diag. by apply Z.mod_0_l; lia. }
  replace (d + 1 - d) with 1 in H0 by lia.
  rewrite Z.mod_1_l in H0 by lia. done.
Qed.

(** X12 from January 3 to January 4, 2024 in UTC. *)
Lemma getWordOfTheDay_next_day_witness :
  dayOfYear (fixed_zone 0) (in_2024 2 12 0 + msPerDay) =
    dayOfYear (fixed_zone 0) (in_2024 2 12 0) + 1 ∧
  getWordOfTheDay (fixed_zone 0) (in_2024 2 12 0 + msPerDay) alpha_beta =
    alpha_beta !!
      Z.to_nat ((dayOfYear (fixed_zone 0) (in_2024 2 12 0) + 1) mod len alpha_beta) ∧
  (NoDup alpha_beta → 2 ≤ len alpha_beta →
   getWordOfTheDay (fixed_zone 0) (in_2024 2 12 0 + msPerDay) alpha_beta ≠
   getWordOfTheDay (fixed_zone 0) (in_2024 2 12 0) alpha_beta).
Proof.
  apply (getWordOfTheDay_next_day 0 (in_2024 2 12 0) alpha_beta).
  - vm_compute. intros [_ H]. by apply H.
  - by vm_compute.
  - discriminate.
Defined.

Lemma DayFromYear_DaysInYear (y : Z) :
  DayFromYear (y + 1) - DayFromYear y = DaysInYear y.
Proof.
  unfold DayFromYear, DaysInYear.
  destruct (Z.eqb_spec (y mod 4) 0); destruct (Z.eqb_spec (y mod 100) 0);
    destruct (Z.eqb_spec (y mod 400) 0); simpl;
    Z.div_mod_to_equations; lia.
Qed.

(** X13: in a zone of constant offset the count is 1 all through January 1
    and, all through December 31, the number of days of the year: 365, or
    366 in a leap year. *)
Theorem dayOfYear_year_ends (offset y ms : Z) :
  ¬ (0 ≤ y ≤ 99) → 0 ≤ ms < msPerDay →
  dayOfYear (fixed_zone offset) (TimeFromYear y + ms - offset) = 1 ∧
  dayOfYear (fixed_zone offset) (TimeFromYear (y + 1) - msPerDay + ms - offset) =
    DaysInYear y.
Proof.
  intros Hy Hms. split; [by apply dayOfYear_january_1|].
  set (t := TimeFromYear (y + 1) - msPerDay + ms).
  replace (TimeFromYear (y + 1) - msPerDay + ms - offset + offset) with t
    by (unfold t; lia).
  assert (Day t = DayFromYear (y + 1) - 1) as HD.
  { unfold t, Day, TimeFromYear, msPerDay in *. Z.div_mod_to_equations. lia. }
  pose proof (DayFromYear_step y) as Hstep.
  assert (YearFromTime t = y) as HY.
  { apply YearFromTime_unique. rewrite HD. lia. }
  replace (TimeFromYear (y + 1) - msPerDay + ms - offset) with (t - offset)
    by (unfold t; lia).
  rewrite dayOfYear_fixed_zone_ordinal;
    replace (t - offset + offset) with t by lia; [|rewrite HY; lia].
  unfold DayWithinYear. rewrite HY, HD, <- DayFromYear_DaysInYear. lia.
Qed.

(** X13 for the leap year 2024 at noon, two hours ahead of UTC. *)
Lemma dayOfYear_year_ends_witness :
  dayOfYear (fixed_zone 7200000) (TimeFromYear 2024 + 43200000 - 7200000) = 1 ∧
  dayOfYear (fixed_zone 7200000)
    (TimeFromYear (2024 + 1) - msPerDay + 43200000 - 7200000) = DaysInYear 2024.
Proof. apply dayOfYear_year_ends; [lia | unfold msPerDay; lia]. Defined.

(** ** wrap and displayWord: the layout *)

(** X14: spaces at the start of a text are dropped: in a box wide enough for
    the prefix to pass the test of the loop, a text wraps as it does without
    them. *)
Theorem wrap_leading_spaces (contentWidth : Z) (k : nat) (text prefix : str) :
  2 * len prefix + 3 ≤ contentWidth →
  wrap contentWidth (replicate k SPACE ++ text) prefix =
  wrap contentWidth text prefix.
Proof.
  intros Hw. induction k as [|k IH]; [done|].
  rewrite <- IH. unfold wrap. simpl replicate. simpl app.
  change (split_space (SPACE :: replicate k SPACE ++ text))
    with ([] :: split_space (replicate k SPACE ++ text)).
  cbn [foldl]. unfold wrap_step at 2. rewrite len_nil.
  destruct (Z.gtb_spec (len prefix + 0 + 1) (contentWidth - 2 - len prefix))
    as [?|_]; [lia|].
  unfold str_same. rewrite bool_decide_eq_true_2 by done.
  by rewrite !app_nil_r.
Qed.

(** X14 at [contentWidth = 40]. *)
Lemma wrap_leading_spaces_witness :
  wrap 40 (replicate 3 SPACE ++ lit "learned, scholarly") (lit "  ") =
  wrap 40 (lit "learned, scholarly") (lit "  ").
Proof. apply wrap_leading_spaces. by vm_compute. Defined.

(** X15: the rule of the loop for one line. A text that does not start with
    a space and has [2 * length prefix + length text + 3 <= contentWidth]
    gives exactly one line, the prefix and the text behind one space, padded
    to [contentWidth] characters. *)
Theorem wrap_one_line (contentWidth : Z) (text prefix : str) :
  2 * len prefix + len text + 3 ≤ contentWidth →
  (∀ rest, text ≠ SPACE :: rest) →
  wrap contentWidth text prefix =
    [SPACE :: padEnd (prefix ++ text) (contentWidth - 1)] ∧
  Forall (λ line, len line = contentWidth) (wrap contentWidth text prefix).
Proof.
  intros Hfit Hstart. rewrite wrap_single_line by done. split; [done|].
  repeat constructor. rewrite len_pad, len_app.
  pose proof (len_nonneg prefix). lia.
Qed.

(** X15 at [contentWidth = 40]. *)
Lemma wrap_one_line_witness :
  wrap 40 (lit "learned, scholarly") (lit "  ") =
    [SPACE :: padEnd (lit "  " ++ lit "learned, scholarly") (40 - 1)] ∧
  Forall (λ line, len line = 40) (wrap 40 (lit "learned, scholarly") (lit "  ")).
Proof.
  apply (wrap_one_line 40 (lit "learned, scholarly") (lit "  ")).
  - by vm_compute.
  - intros rest. discriminate.
Defined.

Lemma lines_fold_count (prefix : str) (maxWidth : Z) (ws lines : list str)
    (cur : str) :
  (length lines ≤
     length (foldl (lines_step prefix maxWidth) (lines, cur) ws).1 ≤
     length lines + length ws)%nat.
Proof.
  revert lines cur. induction ws as [|w ws IH]; intros lines cur; [simpl; lia|].
  cbn [foldl]. unfold lines_step at 2 4.
  destruct (len cur + len w + 1 >? maxWidth).
  - specialize (IH (lines ++ [cur]) (prefix ++ w)).
    rewrite length_app in IH. simpl in *. lia.
  - specialize (IH lines (cur ++ (if str_same cur prefix then [] else [SPACE]) ++ w)).
    simpl. lia.
Qed.

(** X16: [wrap] never returns no line, and never more lines than the text
    has pieces between its spaces, plus one. *)
Theorem wrap_line_count (contentWidth : Z) (text prefix : str) :
  (1 ≤ length (wrap contentWidth text prefix) ≤ S (length (split_space text)))%nat.
Proof.
  rewrite wrap_pad, length_fmap. unfold wrap_lines.
  pose proof (lines_fold_count prefix (contentWidth - 2 - len prefix)
                (split_space text) [] prefix) as H.
  destruct (foldl _ _ _) as [lines cur]. rewrite length_app. simpl in *. lia.
Qed.

Lemma wrap_exact_width_aux (contentWidth : Z) (text prefix line : str) :
  len prefix ≤ contentWidth - 1 →
  line ∈ wrap contentWidth text prefix →
  len line = contentWidth ∨
  ∃ w, w ∈ split_space text ∧ contentWidth - 1 < len (prefix ++ w) ∧
       line = SPACE :: prefix ++ w.
Proof.
  intros Hprefix Hline. rewrite wrap_pad in Hline.
  apply list_elem_of_fmap in Hline as (raw & -> & Hraw).
  pose proof (wrap_lines_shape contentWidth prefix text) as Hall.
  rewrite Forall_forall in Hall. pose proof (len_nonneg prefix).
  destruct (Z.le_gt_cases (len raw) (contentWidth - 1)) as [Hle|Hgt].
  { left. rewrite len_pad. lia. }
  destruct (Hall raw Hraw) as [-> | [(w & Hw & ->) | Hle]]; [lia| |lia].
  right. exists w. split; [done|]. split; [lia|].
  unfold pad. by rewrite padEnd_fits by lia.
Qed.

(** X17: when the prefix leaves room, every line of [wrap] has exactly
    [contentWidth] characters, but for a line that holds one single word too
    long for the box: that one is the word behind a space and the prefix,
    not padded and not cut. *)
Theorem wrap_exact_width (contentWidth : Z) (text prefix line : str) :
  len prefix ≤ contentWidth - 1 →
  line ∈ wrap contentWidth text prefix →
  len line = contentWidth ∨
  ∃ w, w ∈ split_space text ∧ contentWidth - 1 < len (prefix ++ w) ∧
       line = SPACE :: prefix ++ w.
Proof. apply wrap_exact_width_aux. Qed.

(** X17 at [contentWidth = 10] for the line of the long word of
    [1. knowledgeable]. *)
Lemma wrap_exact_width_witness :
  len (SPACE :: lit "  knowledgeable") = 10 ∨
  ∃ w, w ∈ split_space (lit "1. knowledgeable") ∧
       10 - 1 < len (lit "  " ++ w) ∧
       SPACE :: lit "  knowledgeable" = SPACE :: lit "  " ++ w.
Proof.
  apply (wrap_exact_width 10 (lit "1. knowledgeable") (lit "  ")).
  - by vm_compute.
  - apply list_elem_of_lookup. exists 1%nat. by vm_compute.
Defined.

Lemma wrap_fits_exact (contentWidth : Z) (text prefix : str) :
  text_fits contentWidth prefix text = true →
  Forall (λ line, len line = contentWidth) (wrap contentWidth text prefix).
Proof.
  unfold text_fits. rewrite andb_true_iff, forallb_forall.
  intros [Hprefix Hwords]. apply Z.leb_le in Hprefix.
  apply Forall_forall. intros line Hline.
  destruct (wrap_exact_width_aux contentWidth text prefix line Hprefix Hline)
    as [?|(w & Hw & Hlong & _)]; [done|].
  apply list_elem_of_In, Hwords, Z.leb_le in Hw. lia.
Qed.

Lemma Forall_mjoin_imap_lookup {A B} (P : B → Prop) (f : nat → A → list B)
    (l : list A) :
  (∀ i x, l !! i = Some x → Forall P (f i x)) → Forall P (mjoin (imap f l)).
Proof.
  revert f. induction l as [|x l IH]; intros f Hf; simpl; [constructor|].
  apply Forall_app. split; [by apply (Hf 0%nat)|].
  apply IH. intros i y Hy. by apply (Hf (S i)).
Qed.

Lemma forallb_imap_lookup {A} (f : nat → A → bool) (l : list A) (i : nat) (x : A) :
  forallb id (imap f l) = true → l !! i = Some x → f i x = true.
Proof.
  revert f i. induction l as [|y l IH]; intros f i; [done|].
  simpl. rewrite andb_true_iff. intros [H0 Hl] Hi.
  destruct i as [|i]; [simpl in Hi; by simplify_eq|].
  exact (IH (f ∘ S) i Hl Hi).
Qed.

Section Exact.
Variable cw : Z.
Local Abbreviation plain := (colors false).
Local Abbreviation exact := (λ e : Event, ∃ s, e = Stdout s ∧ len s = cw + 2).

Lemma print_pad_exact (content : str) :
  len content ≤ cw - 1 → exact (print plain (pad cw content)).
Proof.
  intros Hfit. eexists. split; [done|].
  rewrite (len_framed cw content); [lia | reflexivity].
Qed.

Lemma wrap_exact_lines (f : str → str) (text prefix : str) :
  (∀ s, f s = s) → text_fits cw prefix text = true →
  Forall exact ((λ line, print plain (f line)) <$> wrap cw text prefix).
Proof.
  intros Hf Hfit. apply Forall_fmap.
  eapply Forall_impl; [by apply wrap_fits_exact|].
  intros line Hline. simpl in *. rewrite Hf. eexists. split; [done|].
  change (len ([BOX_V] ++ line ++ [BOX_V]) = cw + 2).
  rewrite !len_app, !len_cons, !len_nil. lia.
Qed.

Lemma definition_exact (defIndex : nat) (def : Definition_) :
  definition_fits cw defIndex def = true →
  Forall exact (definition_events plain cw defIndex def).
Proof.
  unfold definition_fits, definition_events. rewrite andb_true_iff.
  intros [Hdef Hex]. apply Forall_app. split.
  - by apply (wrap_exact_lines id).
  - destruct (example def) as [ex|]; [|constructor].
    destruct (truthy ex); [|constructor].
    by apply (wrap_exact_lines (gray plain)).
Qed.

Lemma meaning_exact (count index : nat) (meaning : Meaning) :
  meaning_fits cw meaning = true →
  Forall exact (meaning_events plain cw count index meaning).
Proof.
  unfold meaning_fits, meaning_events. rewrite andb_true_iff.
  intros [Hpos Hdefs]. apply Z.leb_le in Hpos.
  constructor; [by apply print_pad_exact|].
  apply Forall_app. split.
  - apply Forall_mjoin_imap_lookup. intros i def Hi.
    apply definition_exact. by apply (forallb_imap_lookup _ _ i def Hdefs).
  - destruct (_ <? _); repeat constructor.
    apply print_pad_exact. rewrite len_nil.
    pose proof (len_nonneg (partOfSpeech meaning)). lia.
Qed.
End Exact.

(** X18: the box is a rectangle when nothing overflows. With colours off, on
    a terminal of at least four columns, for an entry whose header, parts of
    speech and thesaurus label fit and whose wrapped texts have no word too
    long, every line of the block has exactly [contentWidth + 2]
    characters. *)
Theorem displayWord_rectangle (terminalWidth : Z) (entry : WordEntry)
    (rest : list WordEntry) (e : Event) :
  4 ≤ terminalWidth →
  entry_fits (Z.min 80 (terminalWidth - 4)) entry = true →
  e ∈ trace (displayWord (colors false) terminalWidth (entry :: rest)) →
  ∃ s, e = Stdout s ∧ len s = Z.min 80 (terminalWidth - 4) + 2.
Proof.
  intros Htw Hfits. set (cw := Z.min 80 (terminalWidth - 4)) in *.
  revert e. apply Forall_forall.
  rewrite displayWord_trace by done. fold cw. unfold trace. cbn [fst].
  unfold entry_fits in Hfits. rewrite !andb_true_iff in Hfits.
  destruct Hfits as [[[Hhead Hmeanings] Hlabel] Hthes].
  apply Z.leb_le in Hhead, Hlabel.
  assert (0 ≤ cw) as Hcw by (unfold cw; lia).
  constructor. { eexists. split; [done|]. by apply len_border. }
  constructor. { by apply print_pad_exact. }
  constructor. { eexists. split; [done|]. by apply len_border. }
  apply Forall_app. split.
  { apply Forall_mjoin_imap_lookup. intros i m Hi. apply meaning_exact.
    rewrite forallb_forall in Hmeanings. apply Hmeanings, list_elem_of_In.
    by eapply list_elem_of_lookup_2. }
  apply Forall_app. split.
  { unfold thesaurus_events. destruct (0 <? _); [|constructor].
    constructor. { eexists. split; [done|]. by apply len_border. }
    constructor. { by apply print_pad_exact. }
    by apply (wrap_exact_lines cw id). }
  constructor; [|constructor]. eexists. split; [done|]. by apply len_border.
Qed.

(** X18 on 44 columns for the thesaurus line of [short_entry]. *)
Lemma displayWord_rectangle_witness :
  ∃ s,
    print (colors false) (pad 40 (lit "  learned, scholarly")) = Stdout s ∧
    len s = Z.min 80 (44 - 4) + 2.
Proof.
  apply (displayWord_rectangle 44 short_entry []).
  - lia.
  - by vm_compute.
  - apply list_elem_of_lookup. exists 8%nat. by vm_compute.
Defined.

Lemma elem_of_flat_map {A B} (f : A → list B) (l : list A) (y : B) :
  y ∈ flat_map f l ↔ ∃ x, x ∈ l ∧ y ∈ f x.
Proof.
  rewrite list_elem_of_In, in_flat_map. split.
  - intros (x & Hx & Hy). exists x. by rewrite !list_elem_of_In.
  - intros (x & Hx & Hy). exists x. by rewrite <- !list_elem_of_In.
Qed.

(** X19: the thesaurus lists every synonym of the entry, of its meanings and
    of their definitions, and each of them once; its section is printed
    exactly when there is a synonym. *)
Theorem thesaurus_spec (c : Colors) (contentWidth : Z) (entry : WordEntry)
    (separator : str) :
  NoDup (thesaurus entry) ∧
  (∀ w, w ∈ thesaurus entry ↔
        ∃ m, m ∈ meanings entry ∧
             (w ∈ meaning_synonyms m ∨
              ∃ d, d ∈ definitions m ∧ w ∈ synonyms d)) ∧
  (thesaurus_events c contentWidth entry separator = [] ↔
   ∀ m, m ∈ meanings entry →
        meaning_synonyms m = [] ∧
        ∀ d, d ∈ definitions m → synonyms d = []).
Proof.
  unfold thesaurus_events, thesaurus.
  rewrite (new_Set_first_occurrences str_same str_same_spec).
  set (all := flat_map meaning_synonyms (meanings entry) ++
              flat_map (λ m, flat_map synonyms (definitions m)) (meanings entry)).
  assert (∀ w, w ∈ all ↔
          ∃ m, m ∈ meanings entry ∧
               (w ∈ meaning_synonyms m ∨
                ∃ d, d ∈ definitions m ∧ w ∈ synonyms d)) as Hall.
  { intros w. unfold all. rewrite elem_of_app, !elem_of_flat_map. split.
    - intros [(m & Hm & Hw)|(m & Hm & Hw)]; exists m; split; [done|by left|done|].
      right. by apply elem_of_flat_map.
    - intros (m & Hm & [Hw|Hw]); [left|right]; exists m; split; [done..|].
      by apply elem_of_flat_map. }
  split; [apply NoDup_first_occurrences|]. split.
  { intros w. by rewrite elem_of_first_occurrences. }
  assert (first_occurrences all = [] ↔ all = []) as Hnil.
  { destruct all; simpl; split; done. }
  destruct (Z.ltb_spec 0 (len (first_occurrences all))) as [Hpos|Hzero].
  - split; [done|]. intros Hnone. exfalso.
    destruct all as [|w all'] eqn:E; [simpl in Hpos; unfold len in Hpos; simpl in Hpos; lia|].
    destruct (proj1 (Hall w) ltac:(left)) as (m & Hm & [Hw|(d & Hd & Hw)]).
    + destruct (Hnone m Hm) as [Hms _]. rewrite Hms in Hw. by apply elem_of_nil in Hw.
    + destruct (Hnone m Hm) as [_ Hds]. rewrite (Hds d Hd) in Hw.
      by apply elem_of_nil in Hw.
  - split; [|done]. intros _.
    assert (all = []) as Hempty.
    { apply Hnil. destruct (first_occurrences all); [done|].
      unfold len in Hzero. simpl in Hzero. lia. }
    intros m Hm. split.
    + destruct (meaning_synonyms m) as [|w ws] eqn:E; [done|].
      assert (w ∈ all) as Hw by (apply Hall; exists m; split; [done|]; left; rewrite E; left).
      rewrite Hempty in Hw. by apply elem_of_nil in Hw.
    + intros d Hd. destruct (synonyms d) as [|w ws] eqn:E; [done|].
      assert (w ∈ all) as Hw.
      { apply Hall. exists m. split; [done|]. right. exists d. split; [done|].
        rewrite E. left. }
      rewrite Hempty in Hw. by apply elem_of_nil in Hw.
Qed.

(** X20: the header shows the text of the first pronunciation that has one,
    and the [phonetic] field of the entry only when none has. *)
Theorem phoneticText_spec (entry : WordEntry) :
  (Forall (λ p, text p = []) (phonetics entry) →
   phoneticText entry = phonetic entry) ∧
  (∀ before p after,
     phonetics entry = before ++ p :: after →
     Forall (λ q, text q = []) before → text p ≠ [] →
     phoneticText entry = text p).
Proof.
  unfold phoneticText. split.
  - intros Hnone.
    assert (List.find (λ p, truthy (text p)) (phonetics entry) = None) as ->.
    { induction Hnone as [|q l Hq _ IH]; [done|]. simpl. by rewrite Hq. }
    simpl. by destruct (phonetic entry).
  - intros before p after -> Hbefore Hp.
    assert (List.find (λ q, truthy (text q)) (before ++ p :: after) = Some p) as ->.
    { induction Hbefore as [|q l Hq _ IH]; simpl.
      - unfold truthy, str_same. by rewrite bool_decide_eq_false_2.
      - by rewrite Hq. }
    unfold truthy, str_same. by rewrite bool_decide_eq_false_2.
Qed.

(** ** main: the pipeline *)

(** The line that [main] prints for a caught error. *)
Lemma main_catches (env : Env) (out : list Event) (e : Exn) :
  (wordList ← loadWordList env;
   data ← fetchWordData (env_fetch env)
            (ToString_opt (getWordOfTheDay (env_tz env) (env_now env) wordList));
   displayWord (colors (env_color env)) (env_columns env) data) = (out, inl e) →
  main env =
  (out ++ [Stderr (bold (colors (env_color env))
                     (yellow (colors (env_color env))
                        ([NEWLINE] ++ lit "Error: " ++ message e ++ [NEWLINE])))],
   inr tt).
Proof. intros H. unfold main. cbv zeta. rewrite H. by run_M. Qed.

(** X21: [main] never throws: whatever the sources, the clock, the network
    and the terminal give, it returns normally. *)
Theorem main_never_throws (env : Env) : outcome (main env) = inr tt.
Proof.
  unfold main. cbv zeta.
  destruct (loadWordList env ≫= _) as [out [e|[]]]; by run_M.
Qed.

(** X22: when the word list cannot be loaded, [main] prints what the load
    logged and one line with the message of its error, and that is all: the
    clock, the dictionary and the terminal play no part. *)
Theorem main_load_fails (env : Env) (out : list Event) (e : Exn) :
  loadWordList env = (out, inl e) →
  main env =
  (out ++ [Stderr (bold (colors (env_color env))
                     (yellow (colors (env_color env))
                        ([NEWLINE] ++ lit "Error: " ++ message e ++ [NEWLINE])))],
   inr tt).
Proof. intros Hload. apply main_catches. rewrite Hload. by run_M. Qed.

(** X22 for a run in which both lists are empty. *)
Lemma main_load_fails_witness :
  main (lists_env 200 (JArr []) (JArr [])) =
  ([] ++ [Stderr (bold (colors false)
                    (yellow (colors false)
                       ([NEWLINE] ++ lit "Error: " ++
                        message (mkExn KError EMPTY_LIST_MESSAGE) ++ [NEWLINE])))],
   inr tt).
Proof.
  apply (main_load_fails (lists_env 200 (JArr []) (JArr [])) []
           (mkExn KError EMPTY_LIST_MESSAGE)).
  reflexivity.
Defined.

(** X23: a lookup that is rejected, the network being down, ends the run
    like a bad status does: the message of the rejection is printed on the
    error stream behind what the load logged. *)
Theorem main_fetch_rejected (env : Env) (out : list Event)
    (wordList : list json) (e : Exn) :
  loadWordList env = (out, inr wordList) →
  env_fetch env
    (API_URL (ToString_opt
                (getWordOfTheDay (env_tz env) (env_now env) wordList))) =
    FetchRejects e →
  main env =
  (out ++ [Stderr (bold (colors (env_color env))
                     (yellow (colors (env_color env))
                        ([NEWLINE] ++ lit "Error: " ++ message e ++ [NEWLINE])))],
   inr tt).
Proof.
  intros Hload Hfetch. apply main_catches. rewrite Hload.
  unfold fetchWordData. run_M. rewrite Hfetch. simpl. by rewrite app_nil_r.
Qed.

(** X23 for a run whose lookup cannot be sent. *)
Lemma main_fetch_rejected_witness :
  main offline_env =
  ([] ++ [Stderr (bold (colors false)
                    (yellow (colors false)
                       ([NEWLINE] ++ lit "Error: " ++
                        message (mkExn KTypeError (lit "error sending request"))
                        ++ [NEWLINE])))],
   inr tt).
Proof.
  apply (main_fetch_rejected offline_env [] [JStr (lit "erudite")]
           (mkExn KTypeError (lit "error sending request")));
    reflexivity.
Defined.

Lemma displayWord_stdout (c : Colors) (terminalWidth : Z) (entry : WordEntry)
    (rest : list WordEntry) :
  4 ≤ terminalWidth →
  Forall (λ ev, is_stdout ev = true)
    (trace (displayWord c terminalWidth (entry :: rest))).
Proof.
  intros Htw. rewrite displayWord_trace by done. unfold trace. cbn [fst].
  assert (∀ (f : str → Event) l, (∀ s, is_stdout (f s) = true) →
          Forall (λ ev, is_stdout ev = true) (map f l)) as Hmap.
  { intros f l Hf. induction l; constructor; [apply Hf|done]. }
  repeat (constructor; [done|]).
  apply Forall_app. split.
  { apply Forall_mjoin_imap. intros i m. unfold meaning_events.
    constructor; [done|]. apply Forall_app. split.
    - apply Forall_mjoin_imap. intros j d. unfold definition_events.
      apply Forall_app. split; [by apply Hmap|].
      destruct (example d); [|constructor].
      destruct (truthy _); [by apply Hmap|constructor].
    - destruct (_ <? _); by repeat constructor. }
  apply Forall_app. split; [|by repeat constructor].
  unfold thesaurus_events. destruct (0 <? _); [|constructor].
  repeat (constructor; [done|]). by apply Hmap.
Qed.

Lemma filter_stdout_none (l : list Event) :
  Forall (λ ev, is_stdout ev = false) l →
  filter (λ ev, is_stdout ev = true) l = [].
Proof.
  induction l as [|ev l IH]; intros H; [done|]. inversion H; subst.
  rewrite filter_cons, decide_False by congruence. auto.
Qed.

Lemma filter_stdout_all (l : list Event) :
  Forall (λ ev, is_stdout ev = true) l →
  filter (λ ev, is_stdout ev = true) l = l.
Proof.
  induction l as [|ev l IH]; intros H; [done|]. inversion H; subst.
  rewrite filter_cons, decide_True by done. by rewrite IH.
Qed.

(** X24: a run that goes well. With a pool loaded, an ok answer that holds an
    entry and a terminal of at least four columns, [main] prints what the
    load logged and then the block of the first entry; the output stream
    carries the block and nothing else. *)
Theorem main_renders (env : Env) (out : list Event) (wordList : list json)
    (status : Z) (entry : WordEntry) (rest : list WordEntry) :
  loadWordList env = (out, inr wordList) →
  env_fetch env
    (API_URL (ToString_opt
                (getWordOfTheDay (env_tz env) (env_now env) wordList))) =
    Response status (entry :: rest) →
  ok status = true → 4 ≤ env_columns env →
  main env =
    (out ++ trace (displayWord (colors (env_color env)) (env_columns env) [entry]),
     inr tt) ∧
  filter (λ ev, is_stdout ev = true) (trace (main env)) =
    trace (displayWord (colors (env_color env)) (env_columns env) [entry]).
Proof.
  intros Hload Hfetch Hok Hcols.
  assert (main env =
          (out ++ trace (displayWord (colors (env_color env)) (env_columns env) [entry]),
           inr tt)) as Hmain.
  { unfold main. cbv zeta. rewrite Hload. unfold fetchWordData. run_M.
    rewrite Hfetch, Hok. cbn -[displayWord].
    rewrite !displayWord_trace by done. by cbn. }
  split; [done|]. rewrite Hmain. unfold trace at 1. cbn [fst].
  rewrite filter_app.
  pose proof (loadWordList_stderr env) as Hout. rewrite Hload in Hout.
  unfold trace in Hout. cbn [fst] in Hout.
  pose proof (displayWord_stdout (colors (env_color env)) (env_columns env)
                entry [] Hcols) as Hblock.
  by rewrite (filter_stdout_none out Hout), (filter_stdout_all _ Hblock).
Qed.

(** X24 for [short_entry] on 44 columns. *)
Lemma main_renders_witness :
  main (with_custom
          (mkEnv false (Response 200 (JArr [JStr (lit "erudite")])) None None
             (FileText (inr (JArr []))) (fixed_zone 0) (in_2024 2 12 0)
             (λ _, Response 200 [short_entry]) 44)
          None (FileText (inr (JArr [])))) =
    ([] ++ trace (displayWord (colors false) 44 [short_entry]), inr tt) ∧
  filter (λ ev, is_stdout ev = true)
    (trace (main (with_custom
          (mkEnv false (Response 200 (JArr [JStr (lit "erudite")])) None None
             (FileText (inr (JArr []))) (fixed_zone 0) (in_2024 2 12 0)
             (λ _, Response 200 [short_entry]) 44)
          None (FileText (inr (JArr [])))))) =
    trace (displayWord (colors false) 44 [short_entry]).
Proof.
  apply (main_renders
           (with_custom
              (mkEnv false (Response 200 (JArr [JStr (lit "erudite")])) None None
                 (FileText (inr (JArr []))) (fixed_zone 0) (in_2024 2 12 0)
                 (λ _, Response 200 [short_entry]) 44)
              None (FileText (inr (JArr []))))
           [] [JStr (lit "erudite")] 200 short_entry []).
  - reflexivity.
  - reflexivity.
  - reflexivity.
  - simpl. lia.
Defined.

(** X25: on a terminal of less than four columns a run that found its entry
    still renders nothing: [main] prints, behind what the load logged, the
    message of the RangeError that drawing the border throws. *)
Theorem main_terminal_too_narrow (env : Env) (out : list Event)
    (wordList : list json) (status : Z) (entry : WordEntry)
    (rest : list WordEntry) :
  loadWordList env = (out, inr wordList) →
  env_fetch env
    (API_URL (ToString_opt
                (getWordOfTheDay (env_tz env) (env_now env) wordList))) =
    Response status (entry :: rest) →
  ok status = true → env_columns env < 4 →
  main env =
  (out ++ [Stderr (bold (colors (env_color env))
                     (yellow (colors (env_color env))
                        ([NEWLINE] ++ lit "Error: Invalid count value: " ++
                         Number_toString (env_columns env - 4) ++ [NEWLINE])))],
   inr tt).
Proof.
  intros Hload Hfetch Hok Hcols.
  rewrite (main_catches env out
             (mkExn KRangeError
                (lit "Invalid count value: " ++ Number_toString (env_columns env - 4)))).
  - cbn [message]. by rewrite <- !app_assoc.
  - rewrite Hload. unfold fetchWordData. run_M. rewrite Hfetch, Hok.
    cbn -[displayWord]. rewrite displayWord_throws by done.
    by rewrite !app_nil_r.
Qed.

(** X25 for [sample_entry] on three columns. *)
Lemma main_terminal_too_narrow_witness :
  main (render_env 3) =
  ([] ++ [Stderr (bold (colors false)
                    (yellow (colors false)
                       ([NEWLINE] ++ lit "Error: Invalid count value: " ++
                        Number_toString (3 - 4) ++ [NEWLINE])))],
   inr tt).
Proof.
  apply (main_terminal_too_narrow (render_env 3) [] [JStr (lit "erudite")] 200
           sample_entry []).
  - reflexivity.
  - reflexivity.
  - reflexivity.
  - simpl. lia.
Defined.
